(** * TAG: round / session state machine

    A shallow embedding of the round-play logic of the TAG party game
    ([src/App.tsx], [src/components/GamePlay.tsx]) and of the helpers of
    [utils/game] it calls, followed by the properties of scoring, win
    evaluation, the round timer, the cheat guard and the pause penalty.

    Conventions.
    - JavaScript numbers that the code only ever uses as integers
      (scores, millisecond instants, second counts) are [Z]; a number
      that can be [undefined] or [NaN] on some input is a [JsNum].
    - [Date.now()] is an explicit argument [now] of every handler that
      reads it; [Math.random()] is an explicit supply of draws.
    - A React state setter is a field update of the component record;
      a handler is a function from the state it closes over to the
      state it leaves behind, together with what it hands to its
      callbacks. *)

From stdpp Require Import gmap strings list pretty.
From Stdlib Require Import ZArith Lia.

Local Open Scope Z_scope.

(** ** JavaScript values *)

Module Js.

(** A number read out of an object that may lack the key.  [undefined]
    and [NaN] are merged into [NaN]: in every expression of the modelled
    code both add to [NaN] and both compare [false]. *)
Inductive JsNum : Type :=
| Num (z : Z)
| NaN.

#[global] Instance JsNum_eq_dec : EqDecision JsNum.
Proof. solve_decision. Defined.

(** [a + d] and [a - d] with [d] an integer. *)
Definition add (a : JsNum) (d : Z) : JsNum :=
  match a with
  | Num z => Num (z + d)
  | NaN => NaN
  end.

(** [a >= t]. *)
Definition ge (a : JsNum) (t : Z) : bool :=
  match a with
  | Num z => t <=? z
  | NaN => false
  end.

(** [a % n] for an array length [n]: the remainder has the sign of the
    dividend and a zero divisor gives [NaN]. *)
Definition rem (a : JsNum) (n : Z) : JsNum :=
  match a with
  | Num z => if n =? 0 then NaN else Num (Z.rem z n)
  | NaN => NaN
  end.

(** [a === 0]. *)
Definition is_zero (a : JsNum) : bool :=
  match a with
  | Num z => z =? 0
  | NaN => false
  end.

(** [obj[key]] on a [Record<string, number>]. *)
Definition get (obj : gmap string JsNum) (key : string) : JsNum :=
  default NaN (obj !! key).

(** [arr[i]] on a string array; [None] is [undefined]. *)
Definition index (arr : list string) (i : JsNum) : option string :=
  match i with
  | Num z => if z <? 0 then None else arr !! Z.to_nat z
  | NaN => None
  end.

(** A value used as a property key: [undefined] becomes the key
    ["undefined"]. *)
Definition key (v : option string) : string := default "undefined"%string v.

(** [x || 0] on a [number | null]. *)
Definition or_zero (x : option Z) : Z := default 0 x.

(** [!x] on a [number | null]: [null] and [0] are falsy. *)
Definition falsy_num (x : option Z) : bool :=
  match x with
  | None => true
  | Some z => z =? 0
  end.

(** [!s] on a string: only the empty string is falsy. *)
Definition falsy_str (s : string) : bool :=
  if decide (s = ""%string) then true else false.

(** A value that is [null], a string or an array of strings, and its
    use as a condition: [null] and the empty string are falsy; every
    array is truthy, the empty one included. *)
Inductive JsVal : Type :=
| Null
| Str (s : string)
| Arr (a : list string).

Definition truthy (v : JsVal) : bool :=
  match v with
  | Null => false
  | Str s => negb (falsy_str s)
  | Arr _ => true
  end.

(** [Math.ceil(a / b)] and [Math.floor(a / b)] for integers [a] and a
    positive integer [b]. *)
Definition ceil_div (a b : Z) : Z := - ((- a) / b).
Definition floor_div (a b : Z) : Z := a / b.

End Js.

Import Js.

(** ** [types] *)

Module Types.

Record Theme : Type := {
  themeName : string;
  words : list string;
  teams : list string
}.

Record GameSettings : Type := {
  theme : Theme;
  selectedTeams : list string;
  pointsRequired : Z;
  roundTimer : Z;
  skipPenalty : bool
}.

Record RoundResult : Type := {
  word : string;
  guessed : bool
}.

Record GameState : Type := {
  settings : GameSettings;
  currentTeamIndex : JsNum;
  currentRound : Z;
  teamScores : gmap string JsNum;
  wordsUsed : list string;
  currentWordIndex : nat;
  roundStartTime : option Z;
  roundEndTime : option Z;
  isRoundActive : bool;
  isPaused : bool;
  roundResults : list RoundResult
}.

End Types.

Import Types.

(** ** [utils/game] *)

Module Game.

(** Modelled from the spec: [initializeGameState] of [utils/game], which
    is not among the sources.  "initial [teamScores] has exactly one zero
    entry per team and [currentRound == 1]"; every other field starts at
    its idle value. *)
Definition initializeGameState (s : GameSettings) : GameState :=
  {| settings := s;
     currentTeamIndex := Num 0;
     currentRound := 1;
     teamScores := list_to_map ((λ t, (t, Num 0)) <$> selectedTeams s);
     wordsUsed := [];
     currentWordIndex := 0%nat;
     roundStartTime := None;
     roundEndTime := None;
     isRoundActive := false;
     isPaused := false;
     roundResults := [] |}.

(** Modelled from the spec: [getCurrentTeam] of [utils/game]; the team
    whose turn is active, [selectedTeams[currentTeamIndex]]. *)
Definition getCurrentTeam (g : GameState) : option string :=
  index (selectedTeams (settings g)) (currentTeamIndex g).

(** Modelled from the spec: [getAvailableWords] of [utils/game]; "set
    difference of theme's word list minus [wordsUsed]". *)
Definition getAvailableWords (t : Theme) (used : list string) : list string :=
  filter (λ w, w ∉ used) (words t).

(** Modelled from the spec: [checkWinCondition] of [utils/game]; "any team
    whose score [>= target] is a winner ... returns all qualifying teams,
    not just one".  The result is the array that [GamePlay] reads with
    [.length] and assigns to its [winners: string[]]. *)
Definition checkWinCondition (g : GameState) : list string :=
  (filter (λ e : string * JsNum, ge e.2 (pointsRequired (settings g)))
          (map_to_list (teamScores g))).*1.

(** [[a[i], a[j]] = [a[j], a[i]]]. *)
Definition swap {A : Type} (a : list A) (i j : nat) : list A :=
  match a !! i, a !! j with
  | Some x, Some y => <[i := y]> (<[j := x]> a)
  | _, _ => a
  end.

(** The loop [for (i = n; i > 0; i--)] of the shuffle; [rnd i] is the
    draw made at index [i], reduced to [0 .. i]. *)
Fixpoint shuffleFrom {A : Type} (rnd : nat → nat) (i : nat) (a : list A)
  : list A :=
  match i with
  | O => a
  | S i' => shuffleFrom rnd i' (swap a i (rnd i mod (i + 1))%nat)
  end.

(** Modelled from the spec: [shuffleArray] of [utils/game]; "a
    uniform-random permutation of the input (Fisher–Yates or equivalent);
    must visit every element exactly once".  The random choices are the
    argument [rnd]. *)
Definition shuffleArray {A : Type} (rnd : nat → nat) (a : list A) : list A :=
  shuffleFrom rnd (length a - 1)%nat a.

(** [Math.max(...Object.values(teamScores))] as far as it can equal a
    score: [None] stands for [-Infinity] (no value) and for [NaN] (some
    value is not a number), neither of which is [===] to any entry. *)
Fixpoint maxScore (scores : list JsNum) : option Z :=
  match scores with
  | [] => None
  | NaN :: _ => None
  | Num z :: [] => Some z
  | Num z :: rest =>
      match maxScore rest with
      | Some m => Some (Z.max z m)
      | None => None
      end
  end.

(** The team(s) with the highest score, as [startRound] and the render
    of [GamePlay] compute them when no word is left:
    [Object.entries(teamScores).filter(([, score]) => score === maxScore)
     .map(([team]) => team)]. *)
Definition highestScoreTeams (scores : gmap string JsNum) : list string :=
  match maxScore (map_to_list scores).*2 with
  | Some m =>
      (filter (λ e : string * JsNum, e.2 = Num m) (map_to_list scores)).*1
  | None => []
  end.

End Game.

Import Game.

(** ** [App.tsx] *)

Module App.

Inductive AppScreen : Type :=
| Login
| ThemeSelection
| GameSetup
| GamePlayScreen
| RoundResultsScreen
| GameHistory
| CreateTheme.

#[global] Instance AppScreen_eq_dec : EqDecision AppScreen.
Proof. solve_decision. Defined.

(** The part of the component state the round handlers touch, and the
    [tag_game_state] slot of local storage as a handler leaves it (the
    effect that saves [gameState] again after every change is not part of
    a handler). *)
Record AppModel : Type := {
  screen : AppScreen;
  gameState : option GameState;
  savedGameState : option GameState
}.

(** [let potentialScore = currentScore; results.forEach(...)]. *)
Definition potentialScore (penalty : bool) (currentScore : JsNum)
    (results : list RoundResult) : JsNum :=
  fold_left
    (λ acc r,
       if guessed r then add acc 1
       else if penalty then add acc (-1)
       else acc)
    results currentScore.

(** [let scoreChange = 0; finalResults.forEach(...)]. *)
Definition scoreChange (penalty : bool) (finalResults : list RoundResult) : Z :=
  fold_left
    (λ acc r,
       if guessed r then acc + 1
       else if penalty then acc - 1
       else acc)
    finalResults 0.

(** [gameState.settings.selectedTeams[gameState.currentTeamIndex]] used
    as a key of [teamScores]. *)
Definition currentTeamKey (g : GameState) : string :=
  key (index (selectedTeams (settings g)) (currentTeamIndex g)).

(** [handleRoundEnd], called by [GamePlay] with the results of the round
    at instant [now]. *)
Definition handleRoundEnd (now : Z) (results : list RoundResult)
    (a : AppModel) : AppModel :=
  match gameState a with
  | None => a
  | Some g =>
      let currentTeam := currentTeamKey g in
      let currentScore := get (teamScores g) currentTeam in
      let potential :=
        potentialScore (skipPenalty (settings g)) currentScore results in
      if ge potential (pointsRequired (settings g)) then
        let updatedState :=
          {| settings := settings g;
             currentTeamIndex := currentTeamIndex g;
             currentRound := currentRound g;
             teamScores := <[currentTeam := potential]> (teamScores g);
             wordsUsed := wordsUsed g ++ (word <$> results);
             currentWordIndex := currentWordIndex g;
             roundStartTime := roundStartTime g;
             roundEndTime := Some now;
             isRoundActive := false;
             isPaused := isPaused g;
             roundResults := roundResults g |} in
        {| screen := GamePlayScreen;
           gameState := Some updatedState;
           savedGameState := None |}
      else
        {| screen := RoundResultsScreen;
           gameState :=
             Some {| settings := settings g;
                     currentTeamIndex := currentTeamIndex g;
                     currentRound := currentRound g;
                     teamScores := teamScores g;
                     wordsUsed := wordsUsed g;
                     currentWordIndex := currentWordIndex g;
                     roundStartTime := roundStartTime g;
                     roundEndTime := roundEndTime g;
                     isRoundActive := isRoundActive g;
                     isPaused := isPaused g;
                     roundResults := results |};
           savedGameState := savedGameState a |}
  end.

(** The state of [handleRoundResultsConfirm] after
    [updatedState.teamScores[currentTeam] += scoreChange] and
    [updatedState.wordsUsed.push(...)]. *)
Definition scoredState (finalResults : list RoundResult) (g : GameState)
  : GameState :=
  let currentTeam := currentTeamKey g in
  {| settings := settings g;
     currentTeamIndex := currentTeamIndex g;
     currentRound := currentRound g;
     teamScores :=
       <[currentTeam :=
           add (get (teamScores g) currentTeam)
               (scoreChange (skipPenalty (settings g)) finalResults)]>
         (teamScores g);
     wordsUsed := wordsUsed g ++ (word <$> finalResults);
     currentWordIndex := currentWordIndex g;
     roundStartTime := roundStartTime g;
     roundEndTime := roundEndTime g;
     isRoundActive := isRoundActive g;
     isPaused := isPaused g;
     roundResults := roundResults g |}.

(** The tail of [handleRoundResultsConfirm], from "Move to next team" on. *)
Definition nextTurn (g : GameState) : GameState :=
  let nextIndex :=
    rem (add (currentTeamIndex g) 1)
        (Z.of_nat (length (selectedTeams (settings g)))) in
  {| settings := settings g;
     currentTeamIndex := nextIndex;
     currentRound :=
       if is_zero nextIndex then currentRound g + 1 else currentRound g;
     teamScores := teamScores g;
     wordsUsed := wordsUsed g;
     currentWordIndex := 0%nat;
     roundStartTime := None;
     roundEndTime := roundEndTime g;
     isRoundActive := false;
     isPaused := isPaused g;
     roundResults := [] |}.

(** [utils/game] is not among the sources, and [handleRoundResultsConfirm]
    only tests what [checkWinCondition] returns as a condition
    ([if (winner)]): the function is a parameter of the handler, returning
    the JavaScript value that is tested. *)
Section Confirm.

Variable checkWinCondition : GameState → JsVal.

(** [handleRoundResultsConfirm]. *)
Definition handleRoundResultsConfirm (finalResults : list RoundResult)
    (a : AppModel) : AppModel :=
  match gameState a with
  | None => a
  | Some g =>
      let updatedState := scoredState finalResults g in
      let winner := checkWinCondition updatedState in
      if truthy winner then
        {| screen := GamePlayScreen;
           gameState := Some updatedState;
           savedGameState := None |}
      else
        {| screen := GamePlayScreen;
           gameState := Some (nextTurn updatedState);
           savedGameState := savedGameState a |}
  end.

End Confirm.

(** Two readings of the result of [checkWinCondition], after its two
    kinds of callers: the array of every team at the target, which the
    render of [GamePlay.tsx] measures with [.length]; and one team name
    or [null], which the older round-play component prints as
    [{winner} Wins!]. *)
Definition winnersArray (g : GameState) : JsVal :=
  Arr (Game.checkWinCondition g).

Definition firstWinner (g : GameState) : JsVal :=
  match Game.checkWinCondition g with
  | [] => Null
  | team :: _ => Str team
  end.

End App.

(** ** [components/GamePlay.tsx] *)

Module GamePlay.

(** The [gameState] prop (as last passed to [setGameState]), the state
    hooks and refs of the component, and the [tag_game_state] slot of
    local storage.  [timerIntervalRef] has no field: the interval is the
    event [timerTick], offered while [timerRunning].  The callback of the
    interval closes over the [gameState] of the render in which the timer
    effect last ran.  The effect runs again whenever [isRoundActive],
    [roundStartTime] or [roundTimer] change, so while an interval lives
    that [gameState] differs from the current one in [currentWordIndex]
    alone, the only field [handleWordAction] sets; [intervalWordIndex] is
    the [currentWordIndex] the callback holds. *)
Record Play : Type := {
  gameState : GameState;
  currentWord : string;
  roundWords : list string;
  roundResults : list RoundResult;
  currentTime : Z;
  pausedRemainingTime : option Z;
  roundPausedOnce : bool;
  roundResultsRef : list RoundResult;
  roundEndedByTimeout : bool;
  cardExitX : Z;
  isCardExiting : bool;
  nextWord : string;
  cheatingDetected : bool;
  roundStartTimeRef : option Z;
  savedGameState : option GameState;
  intervalWordIndex : nat
}.

(** [Math.max(0, Math.ceil((roundTimer * 1000 - (now - startTime)) / 1000))],
    the expression shared by the render, the interval and [stopRound]. *)
Definition timeLeft (roundTimer startTime now : Z) : Z :=
  Z.max 0 (ceil_div (roundTimer * 1000 - (now - startTime)) 1000).

Definition availableWords (p : Play) : list string :=
  getAvailableWords (theme (settings (gameState p))) (wordsUsed (gameState p)).

(** [remainingTime] of the render. *)
Definition remainingTime (now : Z) (p : Play) : Z :=
  let g := gameState p in
  if isRoundActive g && negb (falsy_num (roundStartTime g)) && negb (isPaused g)
  then timeLeft (roundTimer (settings g)) (or_zero (roundStartTime g)) now
  else if isPaused g then or_zero (pausedRemainingTime p)
  else 0.

(** The condition under which the timer effect installs its interval. *)
Definition timerRunning (p : Play) : bool :=
  let g := gameState p in
  isRoundActive g && bool_decide (roundStartTime g ≠ None) && negb (isPaused g).

Inductive StartOutcome : Type :=
| Started (p : Play)
| NoWordsLeft
| GameEnded.

(** [startRound]; the two reads of [Date.now()] are [nowRef] and [now]. *)
Definition startRound (rnd : nat → nat) (nowRef now : Z) (p : Play)
  : StartOutcome :=
  let g := gameState p in
  if bool_decide (length (availableWords p) = 0%nat) then
    if (0 <? length (highestScoreTeams (teamScores g)))%nat
    then NoWordsLeft
    else GameEnded
  else
    let shuffled := shuffleArray rnd (availableWords p) in
    Started
      {| gameState :=
           {| settings := settings g;
              currentTeamIndex := currentTeamIndex g;
              currentRound := currentRound g;
              teamScores := teamScores g;
              wordsUsed := wordsUsed g;
              currentWordIndex := 0%nat;
              roundStartTime := Some now;
              roundEndTime := roundEndTime g;
              isRoundActive := true;
              isPaused := false;
              Types.roundResults := Types.roundResults g |};
         currentWord := default ""%string (head shuffled);
         roundWords := shuffled;
         roundResults := [];
         currentTime := currentTime p;
         pausedRemainingTime := pausedRemainingTime p;
         roundPausedOnce := false;
         roundResultsRef := [];
         roundEndedByTimeout := roundEndedByTimeout p;
         cardExitX := cardExitX p;
         isCardExiting := isCardExiting p;
         nextWord := nextWord p;
         cheatingDetected := false;
         roundStartTimeRef := Some nowRef;
         savedGameState := savedGameState p;
         intervalWordIndex := 0%nat |}.

(** [endRound(timedOut)]: the state it leaves and the results it hands to
    [onRoundEnd].  The results are copied from [roundResultsRef] on
    entry; the deferred callback stores and delivers that copy. *)
Definition endRound (timedOut : bool) (now : Z) (p : Play)
  : Play * list RoundResult :=
  let g := gameState p in
  let roundEndResults := roundResultsRef p in
  ({| gameState :=
        {| settings := settings g;
           currentTeamIndex := currentTeamIndex g;
           currentRound := currentRound g;
           teamScores := teamScores g;
           wordsUsed := wordsUsed g;
           currentWordIndex := currentWordIndex g;
           roundStartTime := roundStartTime g;
           roundEndTime := Some now;
           isRoundActive := false;
           isPaused := isPaused g;
           Types.roundResults := Types.roundResults g |};
      currentWord := currentWord p;
      roundWords := roundWords p;
      roundResults := roundEndResults;
      currentTime := currentTime p;
      pausedRemainingTime := pausedRemainingTime p;
      roundPausedOnce := roundPausedOnce p;
      roundResultsRef := roundResultsRef p;
      roundEndedByTimeout := timedOut;
      cardExitX := cardExitX p;
      isCardExiting := isCardExiting p;
      nextWord := nextWord p;
      cheatingDetected := false;
      roundStartTimeRef := None;
      savedGameState := savedGameState p;
      intervalWordIndex := intervalWordIndex p |},
   roundEndResults).

(** The component as the callback of the interval sees it: the refs and
    the setters of the hooks are those of every render, the [gameState]
    is the one the callback closed over. *)
Definition intervalView (p : Play) : Play :=
  let g := gameState p in
  {| gameState :=
       {| settings := settings g;
          currentTeamIndex := currentTeamIndex g;
          currentRound := currentRound g;
          teamScores := teamScores g;
          wordsUsed := wordsUsed g;
          currentWordIndex := intervalWordIndex p;
          roundStartTime := roundStartTime g;
          roundEndTime := roundEndTime g;
          isRoundActive := isRoundActive g;
          isPaused := isPaused g;
          Types.roundResults := Types.roundResults g |};
     currentWord := currentWord p;
     roundWords := roundWords p;
     roundResults := roundResults p;
     currentTime := currentTime p;
     pausedRemainingTime := pausedRemainingTime p;
     roundPausedOnce := roundPausedOnce p;
     roundResultsRef := roundResultsRef p;
     roundEndedByTimeout := roundEndedByTimeout p;
     cardExitX := cardExitX p;
     isCardExiting := isCardExiting p;
     nextWord := nextWord p;
     cheatingDetected := cheatingDetected p;
     roundStartTimeRef := roundStartTimeRef p;
     savedGameState := savedGameState p;
     intervalWordIndex := intervalWordIndex p |}.

(** The body of the 100 ms interval: refresh [currentTime] and end the
    round, flagged as timed out, once no time is left.  The [endRound] it
    calls is the one of the render that installed the interval, so the
    [gameState] it spreads is the one the callback holds. *)
Definition timerTick (now : Z) (p : Play) : Play * option (list RoundResult) :=
  match roundStartTime (gameState p) with
  | None => (p, None)
  | Some startTime =>
      let time := timeLeft (roundTimer (settings (gameState p))) startTime now in
      let p1 :=
        {| gameState := gameState p;
           currentWord := currentWord p;
           roundWords := roundWords p;
           roundResults := roundResults p;
           currentTime := time;
           pausedRemainingTime := pausedRemainingTime p;
           roundPausedOnce := roundPausedOnce p;
           roundResultsRef := roundResultsRef p;
           roundEndedByTimeout := roundEndedByTimeout p;
           cardExitX := cardExitX p;
           isCardExiting := isCardExiting p;
           nextWord := nextWord p;
           cheatingDetected := cheatingDetected p;
           roundStartTimeRef := roundStartTimeRef p;
           savedGameState := savedGameState p;
           intervalWordIndex := intervalWordIndex p |} in
      if time <=? 0
      then
        let '(p2, delivered) := endRound true now (intervalView p1) in
        (p2, Some delivered)
      else (p1, None)
  end.

(** [stopRound], the handler of the Pause button. *)
Definition stopRound (rnd : nat → nat) (now : Z) (p : Play) : Play :=
  let g := gameState p in
  let currentRemaining :=
    timeLeft (roundTimer (settings g)) (or_zero (roundStartTime g)) now in
  let remainingWords := drop (length (roundResults p)) (roundWords p) in
  let shuffledRemaining := shuffleArray rnd remainingWords in
  let newRoundWords :=
    take (length (roundResults p)) (roundWords p) ++ shuffledRemaining in
  let updatedState :=
    {| settings := settings g;
       currentTeamIndex := currentTeamIndex g;
       currentRound := currentRound g;
       teamScores := teamScores g;
       wordsUsed := wordsUsed g;
       currentWordIndex := currentWordIndex g;
       roundStartTime := None;
       roundEndTime := roundEndTime g;
       isRoundActive := isRoundActive g;
       isPaused := true;
       Types.roundResults := Types.roundResults g |} in
  {| gameState := updatedState;
     currentWord := default ""%string (head shuffledRemaining);
     roundWords := newRoundWords;
     roundResults := roundResults p;
     currentTime := currentTime p;
     pausedRemainingTime := Some currentRemaining;
     roundPausedOnce := true;
     roundResultsRef := roundResultsRef p;
     roundEndedByTimeout := roundEndedByTimeout p;
     cardExitX := cardExitX p;
     isCardExiting := isCardExiting p;
     nextWord := nextWord p;
     cheatingDetected := cheatingDetected p;
     roundStartTimeRef := roundStartTimeRef p;
     savedGameState := Some updatedState;
     intervalWordIndex := intervalWordIndex p |}.

(** [resumeRound], the handler of the Resume button. *)
Definition resumeRound (now : Z) (p : Play) : Play :=
  let g := gameState p in
  let remainingSeconds := or_zero (pausedRemainingTime p) in
  let newStartTime :=
    now - (roundTimer (settings g) - remainingSeconds) * 1000 in
  {| gameState :=
       {| settings := settings g;
          currentTeamIndex := currentTeamIndex g;
          currentRound := currentRound g;
          teamScores := teamScores g;
          wordsUsed := wordsUsed g;
          currentWordIndex := currentWordIndex g;
          roundStartTime := Some newStartTime;
          roundEndTime := roundEndTime g;
          isRoundActive := isRoundActive g;
          isPaused := false;
          Types.roundResults := Types.roundResults g |};
     currentWord := currentWord p;
     roundWords := roundWords p;
     roundResults := roundResults p;
     currentTime := currentTime p;
     pausedRemainingTime := None;
     roundPausedOnce := roundPausedOnce p;
     roundResultsRef := roundResultsRef p;
     roundEndedByTimeout := roundEndedByTimeout p;
     cardExitX := cardExitX p;
     isCardExiting := isCardExiting p;
     nextWord := nextWord p;
     cheatingDetected := cheatingDetected p;
     roundStartTimeRef := roundStartTimeRef p;
     savedGameState := None;
     intervalWordIndex := currentWordIndex g |}.

(** [checkForCheating(guessedWordsCount)], reading [roundStartTimeRef]
    and [Date.now()]. *)
Definition checkForCheating (startRef : option Z) (now : Z)
    (guessedWordsCount : Z) : bool :=
  if falsy_num startRef then false
  else
    let elapsedSeconds := floor_div (now - or_zero startRef) 1000 in
    elapsedSeconds <? guessedWordsCount.

(** [newResults.filter((r) => r.guessed).length]. *)
Definition guessedCount (results : list RoundResult) : Z :=
  Z.of_nat (length (filter (λ r, guessed r) results)).

(** [handleWordAction(guessed)] up to its [setTimeout]: the guard and
    the start of the card animation.  [wordActionAccepted] tells whether
    the deferred part is scheduled. *)
Definition wordActionAccepted (p : Play) : bool :=
  negb (falsy_str (currentWord p) || isCardExiting p || cheatingDetected p).

Definition handleWordAction (guessed : bool) (p : Play) : Play :=
  if wordActionAccepted p then
    {| gameState := gameState p;
       currentWord := currentWord p;
       roundWords := roundWords p;
       roundResults := roundResults p;
       currentTime := currentTime p;
       pausedRemainingTime := pausedRemainingTime p;
       roundPausedOnce := roundPausedOnce p;
       roundResultsRef := roundResultsRef p;
       roundEndedByTimeout := roundEndedByTimeout p;
       cardExitX := if guessed then 300 else -300;
       isCardExiting := true;
       nextWord := nextWord p;
       cheatingDetected := cheatingDetected p;
       roundStartTimeRef := roundStartTimeRef p;
       savedGameState := savedGameState p;
       intervalWordIndex := intervalWordIndex p |}
  else p.

Inductive WordOutcome : Type :=
| Flagged
| RoundOver (delivered : list RoundResult)
| Advanced.

(** The deferred part of [handleWordAction(guessed)], run at [now]: the
    result is recorded, the cheat guard is consulted, and the round
    either blocks, ends or moves to the next word. *)
Definition wordActionTimeout (guessed : bool) (now : Z) (p : Play)
  : Play * WordOutcome :=
  let g := gameState p in
  let newResults :=
    roundResults p ++ [ {| word := currentWord p; Types.guessed := guessed |} ] in
  let isCheating :=
    checkForCheating (roundStartTimeRef p) now (guessedCount newResults) in
  if isCheating then
    ({| gameState := g;
        currentWord := ""%string;
        roundWords := roundWords p;
        roundResults := newResults;
        currentTime := currentTime p;
        pausedRemainingTime := pausedRemainingTime p;
        roundPausedOnce := roundPausedOnce p;
        roundResultsRef := newResults;
        roundEndedByTimeout := roundEndedByTimeout p;
        cardExitX := 0;
        isCardExiting := false;
        nextWord := ""%string;
        cheatingDetected := true;
        roundStartTimeRef := roundStartTimeRef p;
        savedGameState := savedGameState p;
        intervalWordIndex := intervalWordIndex p |},
     Flagged)
  else
    let nextIndex := (currentWordIndex g + 1)%nat in
    if (length (roundWords p) <=? nextIndex)%nat then
      let '(p', delivered) :=
        endRound false now
          {| gameState := g;
             currentWord := currentWord p;
             roundWords := roundWords p;
             roundResults := newResults;
             currentTime := currentTime p;
             pausedRemainingTime := pausedRemainingTime p;
             roundPausedOnce := roundPausedOnce p;
             roundResultsRef := newResults;
             roundEndedByTimeout := roundEndedByTimeout p;
             cardExitX := 0;
             isCardExiting := false;
             nextWord := nextWord p;
             cheatingDetected := cheatingDetected p;
             roundStartTimeRef := roundStartTimeRef p;
             savedGameState := savedGameState p;
             intervalWordIndex := intervalWordIndex p |} in
      (p', RoundOver delivered)
    else
      let nextWordValue := default ""%string (roundWords p !! nextIndex) in
      ({| gameState :=
            {| settings := settings g;
               currentTeamIndex := currentTeamIndex g;
               currentRound := currentRound g;
               teamScores := teamScores g;
               wordsUsed := wordsUsed g;
               currentWordIndex := nextIndex;
               roundStartTime := roundStartTime g;
               roundEndTime := roundEndTime g;
               isRoundActive := isRoundActive g;
               isPaused := isPaused g;
               Types.roundResults := Types.roundResults g |};
          currentWord := nextWordValue;
          roundWords := roundWords p;
          roundResults := newResults;
          currentTime := currentTime p;
          pausedRemainingTime := pausedRemainingTime p;
          roundPausedOnce := roundPausedOnce p;
          roundResultsRef := newResults;
          roundEndedByTimeout := roundEndedByTimeout p;
          cardExitX := cardExitX p;
          isCardExiting := isCardExiting p;
          nextWord := nextWordValue;
          cheatingDetected := cheatingDetected p;
          roundStartTimeRef := roundStartTimeRef p;
          savedGameState := savedGameState p;
          intervalWordIndex := intervalWordIndex p |},
       Advanced).

(** The inner 150 ms callback that resets the animation state. *)
Definition wordAnimationDone (p : Play) : Play :=
  {| gameState := gameState p;
     currentWord := currentWord p;
     roundWords := roundWords p;
     roundResults := roundResults p;
     currentTime := currentTime p;
     pausedRemainingTime := pausedRemainingTime p;
     roundPausedOnce := roundPausedOnce p;
     roundResultsRef := roundResultsRef p;
     roundEndedByTimeout := roundEndedByTimeout p;
     cardExitX := 0;
     isCardExiting := false;
     nextWord := ""%string;
     cheatingDetected := cheatingDetected p;
     roundStartTimeRef := roundStartTimeRef p;
     savedGameState := savedGameState p;
     intervalWordIndex := intervalWordIndex p |}.

(** One word action carried through: the click, its deferred part at
    [now] and, where it is scheduled, the animation reset. *)
Definition resolveWord (guessed : bool) (now : Z) (p : Play)
  : Play * option (list RoundResult) :=
  if wordActionAccepted p then
    match wordActionTimeout guessed now (handleWordAction guessed p) with
    | (p', Flagged) => (p', None)
    | (p', RoundOver delivered) => (p', Some delivered)
    | (p', Advanced) => (wordAnimationDone p', None)
    end
  else (p, None).

(** A sequence of word actions, each carried through at its instant. *)
Fixpoint resolveWords (actions : list (bool * Z)) (p : Play) : Play :=
  match actions with
  | [] => p
  | (guessed, now) :: rest => resolveWords rest (resolveWord guessed now p).1
  end.

(** [winners] of the render: the teams at the target score, else, when
    no word is left, the teams with the highest score. *)
Definition winners (g : GameState) : list string :=
  let targetWinners := checkWinCondition g in
  if (0 <? length targetWinners)%nat then targetWinners
  else if bool_decide
            (length (getAvailableWords (theme (settings g)) (wordsUsed g)) = 0%nat)
       then highestScoreTeams (teamScores g)
       else [].

(** What the component renders. *)
Inductive View : Type :=
| GameOverView (ws : list string)
| StartRoundView
| RoundView.

Definition render (p : Play) : View :=
  let ws := winners (gameState p) in
  if (0 <? length ws)%nat then GameOverView ws
  else if negb (isRoundActive (gameState p)) then StartRoundView
  else RoundView.

(** The Pause button: rendered in the round view while the round is not
    paused, with [disabled={cheatingDetected || roundPausedOnce}]. *)
Definition pauseEnabled (p : Play) : bool :=
  match render p with
  | RoundView =>
      negb (isPaused (gameState p))
      && negb (cheatingDetected p || roundPausedOnce p)
  | _ => false
  end.

(** A click on the Pause button. *)
Definition clickPause (rnd : nat → nat) (now : Z) (p : Play) : Play :=
  if pauseEnabled p then stopRound rnd now p else p.

(** The Resume button: rendered in the round view while paused. *)
Definition resumeEnabled (p : Play) : bool :=
  match render p with
  | RoundView => isPaused (gameState p)
  | _ => false
  end.

Definition clickResume (now : Z) (p : Play) : Play :=
  if resumeEnabled p then resumeRound now p else p.

(** The component as first mounted on a game state: the initial value
    of every hook. *)
Definition mount (g : GameState) (saved : option GameState) : Play :=
  {| gameState := g;
     currentWord := ""%string;
     roundWords := [];
     roundResults := [];
     currentTime := 0;
     pausedRemainingTime := None;
     roundPausedOnce := false;
     roundResultsRef := [];
     roundEndedByTimeout := false;
     cardExitX := 0;
     isCardExiting := false;
     nextWord := ""%string;
     cheatingDetected := false;
     roundStartTimeRef := None;
     savedGameState := saved;
     intervalWordIndex := currentWordIndex g |}.

End GamePlay.

(** ** The scoring rule and the end of a session, in the words of the
    specification *)

Module Spec.

(** "for each result, [+1] if guessed; if not guessed, [-1] only when
    [skipPenalty] is enabled, else [0]". *)
Definition resultDelta (penalty : bool) (r : RoundResult) : Z :=
  if guessed r then 1 else if penalty then -1 else 0.

Definition roundDelta (penalty : bool) (results : list RoundResult) : Z :=
  foldr (λ r acc, resultDelta penalty r + acc) 0 results.

(** The session is over: the round-play screen is up and shows a
    non-empty set of winners. *)
Definition gameOver (a : App.AppModel) (ws : list string) : Prop :=
  App.screen a = App.GamePlayScreen
  ∧ ∃ g, App.gameState a = Some g
         ∧ GamePlay.winners g = ws
         ∧ ws ≠ [].

(** [0 <= currentTeamIndex < selectedTeams.length]. *)
Definition teamIndexInRange (g : GameState) : Prop :=
  ∃ i, currentTeamIndex g = Num i
       ∧ 0 ≤ i < Z.of_nat (length (selectedTeams (settings g))).

(** "[reshuffleTail(order, consumedCount) -> new order]: splits the order
    at [consumedCount] (already-resolved words are frozen in place),
    permutes only the unresolved suffix, and returns the concatenation". *)
Definition reshuffleTail (rnd : nat → nat) (order : list string)
    (consumedCount : nat) : list string :=
  take consumedCount order ++ shuffleArray rnd (drop consumedCount order).

(** [{ ...gameState, currentWordIndex: i }]. *)
Definition atWord (i : nat) (g : GameState) : GameState :=
  {| settings := settings g;
     currentTeamIndex := currentTeamIndex g;
     currentRound := currentRound g;
     teamScores := teamScores g;
     wordsUsed := wordsUsed g;
     currentWordIndex := i;
     roundStartTime := roundStartTime g;
     roundEndTime := roundEndTime g;
     isRoundActive := isRoundActive g;
     isPaused := isPaused g;
     roundResults := roundResults g |}.

(** A word is on show and no word action is in flight: the card is at
    rest, the results buffer and its ref agree, and the word shown is the
    one at [currentWordIndex] in a draw order without empty words. *)
Definition wordOnShow (p : GamePlay.Play) : Prop :=
  GamePlay.isCardExiting p = false
  ∧ GamePlay.roundResults p = GamePlay.roundResultsRef p
  ∧ GamePlay.roundWords p !! currentWordIndex (GamePlay.gameState p)
    = Some (GamePlay.currentWord p)
  ∧ Forall (λ w, w ≠ ""%string) (GamePlay.roundWords p).

(** The results of resolving, in order, the words shown from position
    [from] on with the given guessed / skipped answers. *)
Definition resolved (order : list string) (from : nat) (answers : list bool)
  : list RoundResult :=
  zip_with (λ w g, {| word := w; guessed := g |}) (drop from order) answers.

End Spec.

(** ** Sample sessions *)

Module Sample.

Definition demoTheme : Theme :=
  {| themeName := "demo"%string;
     words := ["w1"; "w2"; "w3"; "w4"; "w5"; "w6";
               "w7"; "w8"; "w9"; "w10"; "w11"; "w12"]%string;
     teams := ["T1"; "T2"]%string |}.

Definition demoSettings (teamNames : list string) (target duration : Z)
    (penalty : bool) : GameSettings :=
  {| theme := demoTheme;
     selectedTeams := teamNames;
     pointsRequired := target;
     roundTimer := duration;
     skipPenalty := penalty |}.

(** A session in progress with the given scores. *)
Definition withScores (scores : list (string * Z)) (g : GameState) : GameState :=
  {| settings := settings g;
     currentTeamIndex := currentTeamIndex g;
     currentRound := currentRound g;
     teamScores := list_to_map (prod_map id Num <$> scores);
     wordsUsed := wordsUsed g;
     currentWordIndex := currentWordIndex g;
     roundStartTime := roundStartTime g;
     roundEndTime := roundEndTime g;
     isRoundActive := isRoundActive g;
     isPaused := isPaused g;
     roundResults := roundResults g |}.

(** Teams [A] and [B] playing to 20 points. *)
Definition gameAB (scoreA scoreB : Z) : GameState :=
  withScores [("A"%string, scoreA); ("B"%string, scoreB)]
    (initializeGameState (demoSettings ["A"; "B"]%string 20 30 false)).

(** "settings [{teams:[T1,T2], target:10, duration:30, skipPenalty:false}]",
    freshly started. *)
Definition gameT1T2 : GameState :=
  initializeGameState (demoSettings ["T1"; "T2"]%string 10 30 false).

Definition allGuessed (ws : list string) : list RoundResult :=
  (λ w, {| word := w; guessed := true |}) <$> ws.

(** "results [[{w1,true},{w2,false}]]". *)
Definition oneGuessedOneSkipped : list RoundResult :=
  [ {| word := "w1"%string; guessed := true |};
    {| word := "w2"%string; guessed := false |} ].

(** A supply of draws under which the shuffle leaves the order as it is. *)
Definition keepOrder : nat → nat := λ i, i.

(** The first round of [gameT1T2], started at instant [1000]. *)
Definition firstRound : GamePlay.Play :=
  match GamePlay.startRound keepOrder 1000 1000 (GamePlay.mount gameT1T2 None) with
  | GamePlay.Started p => p
  | _ => GamePlay.mount gameT1T2 None
  end.

(** Seven word actions, one every two seconds from instant [3000] on. *)
Definition sevenActions : list (bool * Z) :=
  [(true, 3000); (false, 5000); (true, 7000); (true, 9000);
   (false, 11000); (true, 13000); (true, 15000)].

(** The first round paused at instant [5000], and the same round resumed
    at instant [9000]. *)
Definition pausedRound : GamePlay.Play :=
  GamePlay.stopRound keepOrder 5000 firstRound.

Definition resumedRound : GamePlay.Play :=
  GamePlay.resumeRound 9000 pausedRound.

End Sample.

(** ** The local theme format *)

Module Storage.

(** A theme in the local format, [{ lang, name, teams, words }]. *)
Record LocalTheme : Type := {
  name : string;
  lang : string;
  teams : list string;
  words : list string
}.

#[global] Instance LocalTheme_eq_dec : EqDecision LocalTheme.
Proof. solve_decision. Defined.

End Storage.

(** ** The theme and game clients ([utils/themes], [utils/games]) *)

Module Api.

Record Description : Type := {
  descWords : list string;
  descTeams : list string
}.

(** [Theme] of the API, without the optional counters. *)
Record ApiTheme : Type := {
  themeId : Z;
  apiName : string;
  language : string;
  difficulty : Z;
  public : bool;
  verified : bool;
  description : Description
}.

(** [ThemePayload]: [language], [difficulty] and [public] are optional. *)
Record ThemePayload : Type := {
  payloadName : string;
  payloadLanguage : option string;
  payloadDifficulty : option Z;
  payloadPublic : option bool;
  payloadDescription : Description
}.

(** [apiThemeToLocal]. *)
Definition apiThemeToLocal (theme : ApiTheme) : Storage.LocalTheme :=
  {| Storage.lang := language theme;
     Storage.name := apiName theme;
     Storage.teams := descTeams (description theme);
     Storage.words := descWords (description theme) |}.

(** [localThemeToApi(theme, difficulty = 1)]; [None] is the argument left
    out. *)
Definition localThemeToApi (theme : Storage.LocalTheme) (difficulty : option Z)
  : ThemePayload :=
  {| payloadName := Storage.name theme;
     payloadLanguage := Some (Storage.lang theme);
     payloadDifficulty := Some (default 1 difficulty);
     payloadPublic := None;
     payloadDescription :=
       {| descWords := Storage.words theme;
          descTeams := Storage.teams theme |} |}.

(** [if (s)] on an optional string and [if (n)] on an optional number. *)
Definition truthyStr (s : option string) : bool :=
  match s with
  | Some s => negb (falsy_str s)
  | None => false
  end.

Definition truthyNum (n : option Z) : bool := negb (falsy_num n).

(** The search parameters as appended, each value after its [toString()]. *)
Definition Params : Type := list (string * string).


(** The parameters [getThemes(page = 1, size = 50, language?, difficulty?,
    name?)] builds. *)
Definition getThemesParams (page size : option Z) (language : option string)
    (difficulty : option Z) (name : option string) : Params :=
  [("page"%string, pretty (default 1 page));
   ("size"%string, pretty (default 50 size))]
  ++ (if truthyStr language
      then [("language"%string, default ""%string language)] else [])
  ++ (if truthyNum difficulty
      then [("difficulty"%string, pretty (or_zero difficulty))] else [])
  ++ (if truthyStr name
      then [("name"%string, default ""%string name)] else []).


End Api.

(** ** [utils/storage.ts]: the themes *)

Module ThemeStorage.

(** A theme object as [saveTheme] receives it and [tag_themes] holds it.
    [storage.ts] types it as the [Theme] of the types file, which has
    [language] and no [lang]; the objects that have a [lang] are those of
    the local format [{ lang, name, teams, words }]. *)
Inductive ThemeObject : Type :=
| Local (t : Storage.LocalTheme)
| Typed (t : Api.ApiTheme).

(** [t.name]. *)
Definition name (t : ThemeObject) : string :=
  match t with
  | Local t => Storage.name t
  | Typed t => Api.apiName t
  end.

(** [t.lang]; [None] is [undefined], which an object without that field
    reads. *)
Definition lang (t : ThemeObject) : option string :=
  match t with
  | Local t => Some (Storage.lang t)
  | Typed _ => None
  end.

(** The item under [tag_themes] read through [JSON.parse]: no item (or
    the empty string, which is as falsy as [null]), a text [JSON.parse]
    throws on, or the text [JSON.stringify] wrote for an array of
    themes. *)
Inductive ThemesItem : Type :=
| Absent
| Malformed
| Written (themes : list ThemeObject).

(** [storage.getThemes]: [stored ? JSON.parse(stored) : []], and [[]] when
    parsing throws. *)
Definition getThemes (st : ThemesItem) : list ThemeObject :=
  match st with
  | Written themes => themes
  | Absent | Malformed => []
  end.

(** The test of [themes.findIndex] in [saveTheme],
    [t.name === theme.name && t.lang === theme.lang]; [undefined] is
    [===] to [undefined]. *)
Definition sameTheme (theme t : ThemeObject) : Prop :=
  name t = name theme ∧ lang t = lang theme.

#[global] Instance sameTheme_dec theme t : Decision (sameTheme theme t).
Proof. unfold sameTheme. apply _. Defined.

(** [storage.saveTheme]: replace the first stored theme that passes the
    test, or append. *)
Definition saveTheme (theme : ThemeObject) (st : ThemesItem) : ThemesItem :=
  let themes := getThemes st in
  match list_find (sameTheme theme) themes with
  | Some (existingIndex, _) => Written (<[existingIndex := theme]> themes)
  | None => Written (themes ++ [theme])
  end.

End ThemeStorage.

(** ** [components/GameHistory.tsx] *)

Module GameHistory.

Record TeamEntry : Type := {
  teamName : string;
  score : Z
}.

(** [info] of a [GameDetailsResponse]; the handler tests [info?.teams], so
    both the object and its team list may be missing. *)
Record GameInfo : Type := {
  infoTeams : option (list TeamEntry);
  current_team_index : option Z;
  current_round : option Z
}.

Record GameDetailsResponse : Type := {
  gameId : Z;
  theme_id : Z;
  points : Z;
  round : Z;
  skip_penalty : bool;
  info : option GameInfo;
  words_guessed : list string;
  words_skipped : list string
}.

Inductive ResumeOutcome : Type :=
| ResumeError (message : string)
| Resumed (g : GameState) (id : Z).

(** [game.info?.teams], with [[]] for a missing list: the guard treats a
    missing and an empty list alike. *)
Definition teamsOf (game : GameDetailsResponse) : list TeamEntry :=
  match info game with
  | Some i => default [] (infoTeams i)
  | None => []
  end.

(** [Object.fromEntries(pairs)]: a later pair overrides an earlier one of
    the same key. *)
Definition fromEntries (pairs : list (string * JsNum)) : gmap string JsNum :=
  list_to_map (reverse pairs).

(** The [GameState] built by [handleResumeGame] from the stored game and
    the theme fetched for it. *)
Definition resumedState (game : GameDetailsResponse) (fullTheme : Theme)
  : GameState :=
  let teams := teamsOf game in
  let index := match info game with Some i => current_team_index i | None => None end in
  let storedRound := match info game with Some i => current_round i | None => None end in
  {| settings :=
       {| theme := fullTheme;
          selectedTeams := teamName <$> teams;
          pointsRequired := points game;
          roundTimer := round game;
          skipPenalty := skip_penalty game |};
     currentTeamIndex := Num (or_zero index);
     currentRound := if falsy_num storedRound then round game else or_zero storedRound;
     teamScores := fromEntries ((λ t, (teamName t, Num (score t))) <$> teams);
     wordsUsed := words_guessed game ++ words_skipped game;
     currentWordIndex := (length (words_guessed game) + length (words_skipped game))%nat;
     roundStartTime := None;
     roundEndTime := None;
     isRoundActive := false;
     isPaused := false;
     roundResults :=
       ((λ w, {| word := w; guessed := true |}) <$> words_guessed game)
       ++ ((λ w, {| word := w; guessed := false |}) <$> words_skipped game) |}.

(** [handleResumeGame(game)]; [fetched] is what [getTheme(game.theme_id)]
    settles to, the message of the error it throws or the theme. *)
Definition handleResumeGame (game : GameDetailsResponse)
    (fetched : string + Theme) : ResumeOutcome :=
  if bool_decide (teamsOf game = []) then
    ResumeError "Cannot resume game: missing teams data"
  else
    match fetched with
    | inl message => ResumeError message
    | inr fullTheme => Resumed (resumedState game fullTheme) (gameId game)
    end.

End GameHistory.

(** ** The round-play component without pause and cheat guard
    (the second variant among the sources) *)

Module GamePlayBasic.

Record Play : Type := {
  gameState : GameState;
  currentWord : string;
  roundWords : list string;
  roundResults : list RoundResult;
  currentTime : Z;
  roundResultsRef : list RoundResult
}.

Inductive StartOutcome : Type :=
| Started (p : Play)
| GameEnded.

(** [startRound]: with no word left it calls [onGameEnd]. *)
Definition startRound (rnd : nat → nat) (now : Z) (p : Play) : StartOutcome :=
  let g := gameState p in
  let availableWords := getAvailableWords (theme (settings g)) (wordsUsed g) in
  if bool_decide (length availableWords = 0%nat) then GameEnded
  else
    let shuffled := shuffleArray rnd availableWords in
    Started
      {| gameState :=
           {| settings := settings g;
              currentTeamIndex := currentTeamIndex g;
              currentRound := currentRound g;
              teamScores := teamScores g;
              wordsUsed := wordsUsed g;
              currentWordIndex := 0%nat;
              roundStartTime := Some now;
              roundEndTime := roundEndTime g;
              isRoundActive := true;
              isPaused := isPaused g;
              Types.roundResults := Types.roundResults g |};
         currentWord := default ""%string (head shuffled);
         roundWords := shuffled;
         roundResults := [];
         currentTime := currentTime p;
         roundResultsRef := [] |}.

(** [endRound] up to its [setTimeout]. *)
Definition endRound (now : Z) (p : Play) : Play :=
  let g := gameState p in
  {| gameState :=
       {| settings := settings g;
          currentTeamIndex := currentTeamIndex g;
          currentRound := currentRound g;
          teamScores := teamScores g;
          wordsUsed := wordsUsed g;
          currentWordIndex := currentWordIndex g;
          roundStartTime := roundStartTime g;
          roundEndTime := Some now;
          isRoundActive := false;
          isPaused := isPaused g;
          Types.roundResults := Types.roundResults g |};
     currentWord := currentWord p;
     roundWords := roundWords p;
     roundResults := roundResults p;
     currentTime := currentTime p;
     roundResultsRef := roundResultsRef p |}.

(** The deferred part of [endRound], run on the state of 100 ms later: it
    reads [roundResultsRef] then, stores the copy and hands it to
    [onRoundEnd]. *)
Definition endRoundTimeout (p : Play) : Play * list RoundResult :=
  let currentResults := roundResultsRef p in
  ({| gameState := gameState p;
      currentWord := currentWord p;
      roundWords := roundWords p;
      roundResults := currentResults;
      currentTime := currentTime p;
      roundResultsRef := roundResultsRef p |},
   currentResults).

(** [handleWordAction(guessed)]; the flag tells whether it called
    [endRound]. *)
Definition handleWordAction (guessed : bool) (now : Z) (p : Play) : Play * bool :=
  if falsy_str (currentWord p) then (p, false)
  else
    let g := gameState p in
    let newResults :=
      roundResults p ++ [ {| word := currentWord p; Types.guessed := guessed |} ] in
    let nextIndex := (currentWordIndex g + 1)%nat in
    if (length (roundWords p) <=? nextIndex)%nat then
      (endRound now
         {| gameState := g;
            currentWord := currentWord p;
            roundWords := roundWords p;
            roundResults := newResults;
            currentTime := currentTime p;
            roundResultsRef := newResults |},
       true)
    else
      ({| gameState :=
            {| settings := settings g;
               currentTeamIndex := currentTeamIndex g;
               currentRound := currentRound g;
               teamScores := teamScores g;
               wordsUsed := wordsUsed g;
               currentWordIndex := nextIndex;
               roundStartTime := roundStartTime g;
               roundEndTime := roundEndTime g;
               isRoundActive := isRoundActive g;
               isPaused := isPaused g;
               Types.roundResults := Types.roundResults g |};
          currentWord := default ""%string (roundWords p !! nextIndex);
          roundWords := roundWords p;
          roundResults := newResults;
          currentTime := currentTime p;
          roundResultsRef := newResults |},
       false).

(** A run of word actions, each handled at time [now], up to the one that
    calls [endRound]; the flag tells whether one did. *)
Fixpoint handleWordActions (acts : list bool) (now : Z) (p : Play)
  : Play * bool :=
  match acts with
  | [] => (p, false)
  | guessed :: acts =>
      let '(p', ended) := handleWordAction guessed now p in
      if ended then (p', true) else handleWordActions acts now p'
  end.

End GamePlayBasic.

(** ** The effects of [App.tsx] and turns in sequence *)

Module AppFlow.

(** The effect on [[gameState]]: [if (gameState) storage.saveGameState(gameState)],
    run after every render in which [gameState] has changed. *)
Definition saveEffect (a : App.AppModel) : App.AppModel :=
  match App.gameState a with
  | Some g =>
      {| App.screen := App.screen a;
         App.gameState := Some g;
         App.savedGameState := Some g |}
  | None => a
  end.

(** Rounds confirmed one after the other with no winner found: each is
    scored and the turn passed on, as [handleRoundResultsConfirm] does
    past its winner test. *)
Fixpoint turns (rounds : list (list RoundResult)) (g : GameState) : GameState :=
  match rounds with
  | [] => g
  | finalResults :: rest =>
      turns rest (App.nextTurn (App.scoredState finalResults g))
  end.

End AppFlow.

(** ** Vocabulary and sample data of the further properties *)

Module Standing.

(** What a round in play leaves alone: the settings, the turn, the round
    number, the scores and the used words. *)
Definition same (g g' : GameState) : Prop :=
  settings g' = settings g
  ∧ currentTeamIndex g' = currentTeamIndex g
  ∧ currentRound g' = currentRound g
  ∧ teamScores g' = teamScores g
  ∧ wordsUsed g' = wordsUsed g.

End Standing.

Module Demo.

(** Eleven word actions on the first round, one every two seconds. *)
Definition elevenActions : list (bool * Z) :=
  [(true, 3000); (false, 5000); (true, 7000); (true, 9000);
   (false, 11000); (true, 13000); (true, 15000); (false, 17000);
   (true, 19000); (true, 21000); (false, 23000)].

(** The state of the confirmation screen for the first round of
    [gameT1T2]. *)
Definition confirming : App.AppModel :=
  {| App.screen := App.RoundResultsScreen;
     App.gameState := Some Sample.gameT1T2;
     App.savedGameState := None |}.

Definition playing : App.AppModel :=
  {| App.screen := App.GamePlayScreen;
     App.gameState := Some Sample.gameT1T2;
     App.savedGameState := None |}.

Definition animals : Storage.LocalTheme :=
  {| Storage.name := "animals"%string;
     Storage.lang := "en"%string;
     Storage.teams := ["Cats"; "Dogs"]%string;
     Storage.words := ["cat"; "dog"]%string |}.

(** A two-team session to 10 points in its first round, the second team
    [T2] on turn, [T1] at 3 points and [T2] at 5. *)
Definition secondOnTurn (penalty : bool) : GameState :=
  {| settings := Sample.demoSettings ["T1"; "T2"]%string 10 30 penalty;
     currentTeamIndex := Num 1;
     currentRound := 1;
     teamScores :=
       list_to_map [("T1"%string, Num 3); ("T2"%string, Num 5)];
     wordsUsed := [];
     currentWordIndex := 0%nat;
     roundStartTime := None;
     roundEndTime := None;
     isRoundActive := false;
     isPaused := false;
     roundResults := [] |}.

(** A session in which every word of the theme has been used, [T1] at 4
    points and [T2] at 2. *)
Definition exhausted : GameState :=
  {| settings := settings Sample.gameT1T2;
     currentTeamIndex := Num 0;
     currentRound := 3;
     teamScores :=
       list_to_map [("T1"%string, Num 4); ("T2"%string, Num 2)];
     wordsUsed := Types.words Sample.demoTheme;
     currentWordIndex := 0%nat;
     roundStartTime := None;
     roundEndTime := None;
     isRoundActive := false;
     isPaused := false;
     roundResults := [] |}.

(** A stored game of two teams, with no turn and no round on record. *)
Definition storedGame : GameHistory.GameDetailsResponse :=
  {| GameHistory.gameId := 7;
     GameHistory.theme_id := 3;
     GameHistory.points := 10;
     GameHistory.round := 30;
     GameHistory.skip_penalty := false;
     GameHistory.info :=
       Some {| GameHistory.infoTeams :=
                 Some [ {| GameHistory.teamName := "T1"%string;
                           GameHistory.score := 4 |};
                        {| GameHistory.teamName := "T2"%string;
                           GameHistory.score := 2 |} ];
               GameHistory.current_team_index := None;
               GameHistory.current_round := None |};
     GameHistory.words_guessed := ["w1"; "w3"]%string;
     GameHistory.words_skipped := ["w2"]%string |}.

End Demo.

(** * Properties *)

(** ** Shuffling *)

Section Shuffle.

Context {A : Type}.
Implicit Types a : list A.

Lemma swap_Permutation a i j : swap a i j ≡ₚ a.
Proof.
  unfold swap.
  destruct (a !! i) as [x|] eqn:Hi; [|done].
  destruct (a !! j) as [y|] eqn:Hj; [|done].
  by apply Permutation_insert_swap.
Qed.

Lemma shuffleFrom_Permutation rnd i a : shuffleFrom rnd i a ≡ₚ a.
Proof.
  revert a. induction i as [|i IH]; intros a; simpl; [done|].
  rewrite IH. apply swap_Permutation.
Qed.

Lemma shuffleArray_Permutation rnd a : shuffleArray rnd a ≡ₚ a.
Proof. apply shuffleFrom_Permutation. Qed.

Lemma shuffleArray_length rnd a : length (shuffleArray rnd a) = length a.
Proof. apply Permutation_length, shuffleArray_Permutation. Qed.

End Shuffle.

(** ** The pause penalty *)

Lemma reshuffleTail_prefix rnd (order : list string) consumed :
  take consumed (Spec.reshuffleTail rnd order consumed) = take consumed order.
Proof.
  unfold Spec.reshuffleTail.
  destruct (decide (consumed ≤ length order)%nat) as [Hle|Hgt].
  - rewrite take_app_le by (rewrite length_take; lia).
    rewrite take_take. f_equal. lia.
  - rewrite drop_ge by lia. cbn. by rewrite app_nil_r, take_take, Nat.min_id.
Qed.

Lemma reshuffleTail_Permutation rnd (order : list string) consumed :
  Spec.reshuffleTail rnd order consumed ≡ₚ order.
Proof.
  unfold Spec.reshuffleTail.
  rewrite shuffleArray_Permutation. by rewrite take_drop.
Qed.

Lemma stopRound_roundWords rnd now p :
  GamePlay.roundWords (GamePlay.stopRound rnd now p)
  = Spec.reshuffleTail rnd (GamePlay.roundWords p)
                           (length (GamePlay.roundResults p)).
Proof. reflexivity. Qed.

(** C9.  Pausing a round reshuffles only the unresolved suffix of the draw
    order.  With [consumed] the number of results recorded so far, the
    order left by [stopRound] is the old order split at [consumed] with
    its tail shuffled; its first [consumed] entries are the old ones,
    position by position, and the whole is a permutation of the old order,
    so that no word is added or lost. *)
Theorem stopRound_reshuffles_only_the_tail :
  ∀ (rnd : nat → nat) (now : Z) (p : GamePlay.Play),
    let consumed := length (GamePlay.roundResults p) in
    let old := GamePlay.roundWords p in
    let new := GamePlay.roundWords (GamePlay.stopRound rnd now p) in
    new = Spec.reshuffleTail rnd old consumed
    ∧ take consumed new = take consumed old
    ∧ (∀ i, (i < consumed)%nat → new !! i = old !! i)
    ∧ new ≡ₚ old
    ∧ length new = length old
    ∧ (∀ w, w ∈ new ↔ w ∈ old).
Proof.
  intros rnd now p consumed old new.
  assert (Hnew : new = Spec.reshuffleTail rnd old consumed)
    by apply stopRound_roundWords.
  assert (Hpre : take consumed new = take consumed old)
    by (rewrite Hnew; apply reshuffleTail_prefix).
  assert (Hperm : new ≡ₚ old)
    by (rewrite Hnew; apply reshuffleTail_Permutation).
  repeat split; try done.
  - intros i Hi.
    rewrite <- (lookup_take_lt new consumed i) by done.
    rewrite <- (lookup_take_lt old consumed i) by done.
    by rewrite Hpre.
  - by rewrite Hperm.
  - by rewrite Hperm.
  - by rewrite Hperm.
Qed.

(** ** The round timer *)

Lemma ceil_div_mul (r : Z) : ceil_div (r * 1000) 1000 = r.
Proof.
  unfold ceil_div.
  replace (- (r * 1000)) with ((- r) * 1000) by lia.
  rewrite Z.div_mul by lia. lia.
Qed.

Lemma timeLeft_nonneg d s t : 0 ≤ GamePlay.timeLeft d s t.
Proof. unfold GamePlay.timeLeft. lia. Qed.

Lemma timeLeft_resume d s t :
  GamePlay.timeLeft d (t - (d - GamePlay.timeLeft d s t) * 1000) t
  = GamePlay.timeLeft d s t.
Proof.
  pose proof (timeLeft_nonneg d s t) as Hr.
  set (r := GamePlay.timeLeft d s t) in *.
  unfold GamePlay.timeLeft at 1.
  replace (d * 1000 - (t - (t - (d - r) * 1000))) with (r * 1000) by lia.
  rewrite ceil_div_mul. lia.
Qed.

(** C5.  Pausing and resuming at the same instant [t] leaves the remaining
    time as it was.  [stopRound] captures [timeLeft d s t] seconds,
    [resumeRound] rebuilds the start instant
    [t - (d - remainingAtPause) * 1000], and the time left computed from
    the rebuilt instant at [t] is the captured one; this holds for every
    start instant [s], duration [d] and instant [t], on the formulas and
    on the two handlers run one after the other.  While the round is
    paused the time shown stays at the captured value. *)
Theorem resume_after_pause_keeps_remaining :
  (∀ s d t : Z,
     GamePlay.timeLeft d (t - (d - GamePlay.timeLeft d s t) * 1000) t
     = GamePlay.timeLeft d s t)
  ∧ (∀ (rnd : nat → nat) (t : Z) (p : GamePlay.Play),
       let d := roundTimer (settings (GamePlay.gameState p)) in
       let s := or_zero (roundStartTime (GamePlay.gameState p)) in
       let paused := GamePlay.stopRound rnd t p in
       let resumed := GamePlay.resumeRound t paused in
       GamePlay.pausedRemainingTime paused = Some (GamePlay.timeLeft d s t)
       ∧ roundStartTime (GamePlay.gameState paused) = None
       ∧ roundStartTime (GamePlay.gameState resumed)
         = Some (t - (d - GamePlay.timeLeft d s t) * 1000)
       ∧ (∀ t', GamePlay.remainingTime t' paused = GamePlay.timeLeft d s t)
       ∧ roundTimer (settings (GamePlay.gameState resumed)) = d
       ∧ GamePlay.timeLeft d
           (or_zero (roundStartTime (GamePlay.gameState resumed))) t
         = GamePlay.timeLeft d s t).
Proof.
  split.
  - intros s d t. apply timeLeft_resume.
  - intros rnd t p d s paused resumed.
    split_and!; try reflexivity.
    + intros t'. unfold GamePlay.remainingTime. cbn.
      by rewrite andb_false_r.
    + cbn. apply timeLeft_resume.
Qed.

(** ** The cheat guard *)

Lemma floor_div_1000 (a e : Z) :
  floor_div a 1000 = e ↔ 1000 * e ≤ a < 1000 * (e + 1).
Proof.
  unfold floor_div. split.
  - intros <-. pose proof (Z.mul_div_le a 1000).
    pose proof (Z.mul_succ_div_gt a 1000). lia.
  - intros H. symmetry. apply (Z.div_unique a 1000 e (a - 1000 * e)); lia.
Qed.

Lemma guessedCount_nil : GamePlay.guessedCount [] = 0.
Proof. reflexivity. Qed.

Lemma guessedCount_snoc results r :
  GamePlay.guessedCount (results ++ [r])
  = GamePlay.guessedCount results + (if guessed r then 1 else 0).
Proof.
  unfold GamePlay.guessedCount.
  rewrite filter_app, length_app, Nat2Z.inj_add. f_equal.
  by destruct r as [w [|]].
Qed.

Lemma guessedCount_nonneg results : 0 ≤ GamePlay.guessedCount results.
Proof. unfold GamePlay.guessedCount. lia. Qed.

Lemma checkForCheating_zero startRef now :
  (∀ s, startRef = Some s → s ≤ now) →
  GamePlay.checkForCheating startRef now 0 = false.
Proof.
  intros Hle. unfold GamePlay.checkForCheating.
  destruct startRef as [s|]; cbn; [|done].
  destruct (s =? 0); [done|].
  specialize (Hle s eq_refl).
  apply Z.ltb_ge. unfold floor_div. apply Z.div_pos; lia.
Qed.

(** C6.  With the start instant [s] of the round on record, the cheating
    check answers [true] exactly when the count of guessed words exceeds
    the whole seconds elapsed, [floor ((now - s) / 1000)]; the count it is
    given by the word handler is the number of results with
    [guessed = true], so that a skip leaves it unchanged.  Hence a count
    of [0] is never flagged, whatever time has elapsed, and a count of [5]
    after 2 seconds is. *)
Theorem checkForCheating_exceeds_elapsed_seconds :
  ∀ (s now count : Z),
    s ≠ 0 →
    (GamePlay.checkForCheating (Some s) now count = true
     ↔ ∃ elapsed, 1000 * elapsed ≤ now - s < 1000 * (elapsed + 1)
                  ∧ count > elapsed)
    ∧ (GamePlay.checkForCheating (Some s) now count
       = (floor_div (now - s) 1000 <? count))
    ∧ (∀ (p : GamePlay.Play) (g : bool),
         GamePlay.roundStartTimeRef p = Some s →
         (GamePlay.wordActionTimeout g now p).2 = GamePlay.Flagged
         ↔ GamePlay.guessedCount
             (GamePlay.roundResults p
              ++ [ {| word := GamePlay.currentWord p; guessed := g |} ])
           > floor_div (now - s) 1000)
    ∧ (∀ results w,
         GamePlay.guessedCount (results ++ [ {| word := w; guessed := true |} ])
         = GamePlay.guessedCount results + 1
         ∧ GamePlay.guessedCount (results ++ [ {| word := w; guessed := false |} ])
           = GamePlay.guessedCount results)
    ∧ (s ≤ now → GamePlay.checkForCheating (Some s) now 0 = false)
    ∧ (2000 ≤ now - s < 3000 → GamePlay.checkForCheating (Some s) now 5 = true).
Proof.
  intros s now count Hs.
  assert (Hcheck : ∀ n, GamePlay.checkForCheating (Some s) now n
                        = (floor_div (now - s) 1000 <? n)).
  { intros n. unfold GamePlay.checkForCheating. cbn.
    destruct (s =? 0) eqn:E; [lia|done]. }
  split_and!.
  - rewrite Hcheck, Z.ltb_lt. split.
    + intros Hlt. exists (floor_div (now - s) 1000).
      split; [by apply floor_div_1000|lia].
    + intros (e & He & Hgt). apply floor_div_1000 in He. lia.
  - apply Hcheck.
  - intros p g Href. unfold GamePlay.wordActionTimeout.
    rewrite Href, Hcheck.
    destruct (floor_div (now - s) 1000 <? _) eqn:E; cbn.
    + apply Z.ltb_lt in E. split; [lia|done].
    + apply Z.ltb_ge in E.
      destruct (length (GamePlay.roundWords p) <=? _)%nat; cbn;
        (split; [done|lia]).
  - intros results w. rewrite !guessedCount_snoc. cbn. lia.
  - intros Hle. apply checkForCheating_zero. by intros ? [= <-].
  - intros Hel. rewrite Hcheck. apply Z.ltb_lt.
    assert (floor_div (now - s) 1000 = 2) as -> by (apply floor_div_1000; lia).
    lia.
Qed.

(** The guard at an instant 2 seconds into a round that began at
    [1000]: five guessed words are flagged, none is not. *)
Lemma checkForCheating_exceeds_elapsed_seconds_witness :
  GamePlay.checkForCheating (Some 1000) 3000 5 = true
  ∧ GamePlay.checkForCheating (Some 1000) 3000 0 = false.
Proof.
  pose proof (checkForCheating_exceeds_elapsed_seconds 1000 3000 5
                ltac:(lia)) as (_ & _ & _ & _ & Hzero & Hfive).
  split; [apply Hfive; lia | apply Hzero; lia].
Defined.

(** ** Win evaluation *)

Lemma ge_true (a : JsNum) (t : Z) : ge a t ↔ ∃ z, a = Num z ∧ t ≤ z.
Proof.
  destruct a as [z|]; cbn.
  - rewrite Is_true_true, Z.leb_le. split; [eauto|]. by intros (? & [= <-] & ?).
  - split; [done|]. by intros (? & ? & ?).
Qed.

Lemma elem_of_checkWinCondition g team :
  team ∈ checkWinCondition g
  ↔ ∃ score, teamScores g !! team = Some (Num score)
             ∧ pointsRequired (settings g) ≤ score.
Proof.
  unfold checkWinCondition. rewrite list_elem_of_fmap. split.
  - intros ([t v] & -> & [Hge Hin]%list_elem_of_filter). cbn in *.
    apply elem_of_map_to_list in Hin.
    apply ge_true in Hge as (z & -> & Hle). eauto.
  - intros (score & Hlook & Hle). exists (team, Num score). split; [done|].
    apply list_elem_of_filter. split.
    + apply ge_true. eauto.
    + by apply elem_of_map_to_list.
Qed.

Lemma NoDup_checkWinCondition g : NoDup (checkWinCondition g).
Proof.
  unfold checkWinCondition.
  apply (sublist_NoDup _ (map_to_list (teamScores g)).*1).
  - apply NoDup_fst_map_to_list.
  - apply fmap_sublist, sublist_filter.
Qed.

Lemma checkWinCondition_nil g :
  checkWinCondition g = []
  ↔ ∀ team score, teamScores g !! team = Some (Num score) →
                  score < pointsRequired (settings g).
Proof.
  split.
  - intros Hnil team score Hlook.
    destruct (decide (pointsRequired (settings g) ≤ score)) as [Hle|]; [|lia].
    assert (team ∈ checkWinCondition g) as Hin
      by (apply elem_of_checkWinCondition; eauto).
    rewrite Hnil in Hin. by apply not_elem_of_nil in Hin.
  - intros Hall. destruct (checkWinCondition g) as [|team l] eqn:E; [done|].
    assert (team ∈ checkWinCondition g) as Hin by (rewrite E; left).
    apply elem_of_checkWinCondition in Hin as (score & Hlook & Hle).
    specialize (Hall _ _ Hlook). lia.
Qed.

Lemma winners_target g :
  checkWinCondition g ≠ [] → GamePlay.winners g = checkWinCondition g.
Proof.
  intros Hne. unfold GamePlay.winners.
  destruct (checkWinCondition g); [done|]. reflexivity.
Qed.

(** C1.  Win evaluation returns all the teams whose score has reached the
    target: a team is among the winners exactly when it has a score and
    that score is [>=] the target, each such team is listed once, and the
    render of the round-play screen shows that whole list.  Teams
    [{A:18, B:20}] at target [20] give [{B}]; teams [{A:20, B:20}] give
    both [A] and [B]. *)
Theorem checkWinCondition_returns_all_teams_at_target :
  (∀ (g : GameState) (team : string),
     team ∈ checkWinCondition g
     ↔ ∃ score, teamScores g !! team = Some (Num score)
                ∧ score >= pointsRequired (settings g))
  ∧ (∀ g : GameState, NoDup (checkWinCondition g))
  ∧ (∀ g : GameState,
       checkWinCondition g ≠ [] → GamePlay.winners g = checkWinCondition g)
  ∧ (∀ (g : GameState) (t1 t2 : string) (s1 s2 : Z),
       teamScores g !! t1 = Some (Num s1) →
       teamScores g !! t2 = Some (Num s2) →
       s1 >= pointsRequired (settings g) →
       s2 >= pointsRequired (settings g) →
       t1 ∈ checkWinCondition g ∧ t2 ∈ checkWinCondition g)
  ∧ checkWinCondition (Sample.gameAB 18 20) = ["B"%string]
  ∧ checkWinCondition (Sample.gameAB 20 20) = ["A"%string; "B"%string].
Proof.
  split_and!.
  - intros g team. rewrite elem_of_checkWinCondition.
    split; intros (score & ? & ?); exists score; split; [done|lia|done|lia].
  - apply NoDup_checkWinCondition.
  - apply winners_target.
  - intros g t1 t2 s1 s2 H1 H2 Hs1 Hs2.
    split; apply elem_of_checkWinCondition; eexists; split; [done|lia|done|lia].
  - reflexivity.
  - reflexivity.
Qed.

(** ** Scoring *)

Lemma roundDelta_cons penalty r results :
  Spec.roundDelta penalty (r :: results)
  = Spec.resultDelta penalty r + Spec.roundDelta penalty results.
Proof. reflexivity. Qed.

Lemma scoreChange_fold (penalty : bool) (results : list RoundResult) (acc : Z) :
  fold_left
    (λ acc (r : RoundResult),
       if guessed r then acc + 1 else if penalty then acc - 1 else acc)
    results acc
  = acc + Spec.roundDelta penalty results.
Proof.
  revert acc. induction results as [|r results IH]; intros acc.
  - cbn. lia.
  - cbn [fold_left]. rewrite IH, roundDelta_cons. unfold Spec.resultDelta.
    destruct (guessed r), penalty; lia.
Qed.

Lemma scoreChange_roundDelta penalty results :
  App.scoreChange penalty results = Spec.roundDelta penalty results.
Proof. unfold App.scoreChange. rewrite scoreChange_fold. lia. Qed.

Lemma potentialScore_roundDelta penalty current results :
  App.potentialScore penalty current results
  = add current (Spec.roundDelta penalty results).
Proof.
  unfold App.potentialScore.
  revert current. induction results as [|r results IH]; intros current.
  - destruct current; cbn; [f_equal; lia|done].
  - cbn [fold_left]. rewrite IH, roundDelta_cons. unfold Spec.resultDelta.
    destruct (guessed r), penalty, current; cbn [add]; try done; f_equal; lia.
Qed.

Lemma roundDelta_counts penalty results :
  Spec.roundDelta penalty results
  = Z.of_nat (length (filter (λ r, guessed r = true) results))
    - (if penalty
       then Z.of_nat (length (filter (λ r, guessed r = false) results))
       else 0).
Proof.
  induction results as [|r results IH]; [by destruct penalty|].
  rewrite roundDelta_cons, IH. unfold Spec.resultDelta.
  rewrite !filter_cons.
  destruct (guessed r), penalty; repeat case_decide; try done; cbn [length]; lia.
Qed.

Lemma confirm_gameState checkWin finalResults a g :
  App.gameState a = Some g →
  ∃ g', App.gameState (App.handleRoundResultsConfirm checkWin finalResults a)
        = Some g'
        ∧ teamScores g' = teamScores (App.scoredState finalResults g)
        ∧ wordsUsed g' = wordsUsed (App.scoredState finalResults g)
        ∧ settings g' = settings g.
Proof.
  intros Hg. unfold App.handleRoundResultsConfirm. rewrite Hg.
  destruct (truthy _); eexists; (split; [reflexivity|done]).
Qed.

(** The team on turn: with [currentTeamIndex] the index [i] of a team of
    [selectedTeams], the key under which the handlers read and write the
    score is the name of that team. *)
Lemma currentTeamKey_on_turn (g : GameState) (i : nat) (team : string) :
  currentTeamIndex g = Num (Z.of_nat i) →
  selectedTeams (settings g) !! i = Some team →
  App.currentTeamKey g = team.
Proof.
  intros Hi Hteam. unfold App.currentTeamKey, index. rewrite Hi.
  destruct (Z.ltb_spec (Z.of_nat i) 0) as [Hneg|_]; [lia|].
  by rewrite Nat2Z.id, Hteam.
Qed.

(** The confirmation on the key [selectedTeams[currentTeamIndex]],
    whatever that expression reads, an index outside the teams
    included. *)
Lemma confirm_scores_at_key :
  ∀ (checkWin : GameState → JsVal) (finalResults : list RoundResult)
    (a : App.AppModel) (g : GameState),
    App.gameState a = Some g →
    let team := App.currentTeamKey g in
    let penalty := skipPenalty (settings g) in
    let delta := Spec.roundDelta penalty finalResults in
    App.scoreChange penalty finalResults = delta
    ∧ delta
      = Z.of_nat (length (filter (λ r, guessed r = true) finalResults))
        - (if penalty
           then Z.of_nat (length (filter (λ r, guessed r = false) finalResults))
           else 0)
    ∧ ∃ g', App.gameState
              (App.handleRoundResultsConfirm checkWin finalResults a) = Some g'
            ∧ teamScores g'
              = <[team := add (get (teamScores g) team) delta]> (teamScores g)
            ∧ (∀ score, teamScores g !! team = Some (Num score) →
                        teamScores g' !! team = Some (Num (score + delta)))
            ∧ (∀ other, other ≠ team →
                        teamScores g' !! other = teamScores g !! other).
Proof.
  intros checkWin finalResults a g Hg team penalty delta.
  split; [apply scoreChange_roundDelta|].
  split; [apply roundDelta_counts|].
  destruct (confirm_gameState checkWin finalResults a g Hg)
    as (g' & Hg' & Hscores & _ & _).
  exists g'. split; [done|].
  assert (Hs : teamScores g'
               = <[team := add (get (teamScores g) team) delta]> (teamScores g)).
  { rewrite Hscores. cbn. by rewrite scoreChange_roundDelta. }
  split_and!; [done| |].
  - intros score Hscore. rewrite Hs, lookup_insert_eq.
    unfold get. by rewrite Hscore.
  - intros other Hne. by rewrite Hs, lookup_insert_ne.
Qed.

(** C2.  Confirming the results of a round changes the score of the acting
    team, the team [selectedTeams[currentTeamIndex]] whose turn it is, by
    one delta: [+1] for each result with [guessed = true], and for each
    result with [guessed = false], [-1] when the skip penalty is on and
    [0] when it is off.  The delta is what the handler accumulates in
    [scoreChange]; it is added once to the entry of the team on turn, and
    the entry of every other team, the first team included when it is not
    on turn, is left as it was. *)
Theorem confirm_applies_round_delta :
  ∀ (checkWin : GameState → JsVal) (finalResults : list RoundResult)
    (a : App.AppModel) (g : GameState) (i : nat) (team : string),
    App.gameState a = Some g →
    currentTeamIndex g = Num (Z.of_nat i) →
    selectedTeams (settings g) !! i = Some team →
    let penalty := skipPenalty (settings g) in
    let delta := Spec.roundDelta penalty finalResults in
    App.scoreChange penalty finalResults = delta
    ∧ delta
      = Z.of_nat (length (filter (λ r, guessed r = true) finalResults))
        - (if penalty
           then Z.of_nat (length (filter (λ r, guessed r = false) finalResults))
           else 0)
    ∧ ∃ g', App.gameState
              (App.handleRoundResultsConfirm checkWin finalResults a) = Some g'
            ∧ teamScores g'
              = <[team := add (get (teamScores g) team) delta]> (teamScores g)
            ∧ (∀ score, teamScores g !! team = Some (Num score) →
                        teamScores g' !! team = Some (Num (score + delta)))
            ∧ (∀ other, other ≠ team →
                        teamScores g' !! other = teamScores g !! other).
Proof.
  intros checkWin finalResults a g i team Hg Hi Hteam penalty delta.
  pose proof (confirm_scores_at_key checkWin finalResults a g Hg) as Hkey.
  cbv zeta in Hkey.
  rewrite (currentTeamKey_on_turn g i team Hi Hteam) in Hkey.
  exact Hkey.
Qed.

(** Results [[{w1,true},{w2,false}]] confirmed with the second team [T2]
    on turn at 5 points, [T1] at 3: with the skip penalty off [T2] goes
    to 6, with the skip penalty on it stays at 5, and [T1] stays at 3
    both times. *)
Lemma confirm_applies_round_delta_witness :
  (∃ g', App.gameState
           (App.handleRoundResultsConfirm App.firstWinner
              Sample.oneGuessedOneSkipped
              {| App.screen := App.RoundResultsScreen;
                 App.gameState := Some (Demo.secondOnTurn false);
                 App.savedGameState := None |}) = Some g'
         ∧ teamScores g' !! "T2"%string = Some (Num 6)
         ∧ teamScores g' !! "T1"%string = Some (Num 3))
  ∧ (∃ g', App.gameState
             (App.handleRoundResultsConfirm App.firstWinner
                Sample.oneGuessedOneSkipped
                {| App.screen := App.RoundResultsScreen;
                   App.gameState := Some (Demo.secondOnTurn true);
                   App.savedGameState := None |}) = Some g'
           ∧ teamScores g' !! "T2"%string = Some (Num 5)
           ∧ teamScores g' !! "T1"%string = Some (Num 3)).
Proof.
  split.
  - destruct (confirm_applies_round_delta App.firstWinner
                Sample.oneGuessedOneSkipped
                {| App.screen := App.RoundResultsScreen;
                   App.gameState := Some (Demo.secondOnTurn false);
                   App.savedGameState := None |}
                (Demo.secondOnTurn false) 1%nat "T2"%string
                eq_refl eq_refl eq_refl)
      as (_ & _ & g' & Hg' & _ & Hteam & Hother).
    exists g'. split; [exact Hg'|]. split; [exact (Hteam 5 eq_refl)|].
    rewrite (Hother "T1"%string ltac:(discriminate)). reflexivity.
  - destruct (confirm_applies_round_delta App.firstWinner
                Sample.oneGuessedOneSkipped
                {| App.screen := App.RoundResultsScreen;
                   App.gameState := Some (Demo.secondOnTurn true);
                   App.savedGameState := None |}
                (Demo.secondOnTurn true) 1%nat "T2"%string
                eq_refl eq_refl eq_refl)
      as (_ & _ & g' & Hg' & _ & Hteam & Hother).
    exists g'. split; [exact Hg'|]. split; [exact (Hteam 5 eq_refl)|].
    rewrite (Hother "T1"%string ltac:(discriminate)). reflexivity.
Defined.

(** ** The end of a round *)

Lemma handleRoundEnd_win now results a g z :
  App.gameState a = Some g →
  App.potentialScore (skipPenalty (settings g))
    (get (teamScores g) (App.currentTeamKey g)) results = Num z →
  pointsRequired (settings g) ≤ z →
  App.handleRoundEnd now results a
  = {| App.screen := App.GamePlayScreen;
       App.gameState :=
         Some {| settings := settings g;
                 currentTeamIndex := currentTeamIndex g;
                 currentRound := currentRound g;
                 teamScores := <[App.currentTeamKey g := Num z]> (teamScores g);
                 wordsUsed := wordsUsed g ++ (word <$> results);
                 currentWordIndex := currentWordIndex g;
                 roundStartTime := roundStartTime g;
                 roundEndTime := Some now;
                 isRoundActive := false;
                 isPaused := isPaused g;
                 roundResults := roundResults g |};
       App.savedGameState := None |}.
Proof.
  intros Hg Hpot Hle. unfold App.handleRoundEnd. rewrite Hg, Hpot. cbn.
  by destruct (Z.leb_spec (pointsRequired (settings g)) z); [|lia].
Qed.

Lemma handleRoundEnd_no_win now results a g :
  App.gameState a = Some g →
  ge (App.potentialScore (skipPenalty (settings g))
        (get (teamScores g) (App.currentTeamKey g)) results)
     (pointsRequired (settings g)) = false →
  App.handleRoundEnd now results a
  = {| App.screen := App.RoundResultsScreen;
       App.gameState :=
         Some {| settings := settings g;
                 currentTeamIndex := currentTeamIndex g;
                 currentRound := currentRound g;
                 teamScores := teamScores g;
                 wordsUsed := wordsUsed g;
                 currentWordIndex := currentWordIndex g;
                 roundStartTime := roundStartTime g;
                 roundEndTime := roundEndTime g;
                 isRoundActive := isRoundActive g;
                 isPaused := isPaused g;
                 roundResults := results |};
       App.savedGameState := App.savedGameState a |}.
Proof.
  intros Hg Hpot. unfold App.handleRoundEnd. by rewrite Hg, Hpot.
Qed.

(** The end of a round on the key [selectedTeams[currentTeamIndex]],
    whatever that expression reads, an index outside the teams
    included. *)
Lemma handleRoundEnd_at_key :
  ∀ (now : Z) (results : list RoundResult) (a : App.AppModel) (g : GameState),
    App.gameState a = Some g →
    let team := App.currentTeamKey g in
    let target := pointsRequired (settings g) in
    let potential :=
      add (get (teamScores g) team)
          (Spec.roundDelta (skipPenalty (settings g)) results) in
    let a' := App.handleRoundEnd now results a in
    (ge potential target = true →
       App.screen a' = App.GamePlayScreen
       ∧ ∃ g', App.gameState a' = Some g'
               ∧ teamScores g' = <[team := potential]> (teamScores g)
               ∧ wordsUsed g' = wordsUsed g ++ (word <$> results)
               ∧ isRoundActive g' = false
               ∧ roundEndTime g' = Some now
               ∧ currentTeamIndex g' = currentTeamIndex g
               ∧ currentRound g' = currentRound g
               ∧ team ∈ GamePlay.winners g'
               ∧ Spec.gameOver a' (GamePlay.winners g'))
    ∧ (App.screen a' = App.RoundResultsScreen ↔ ge potential target = false)
    ∧ (ge potential target = false →
         ∃ g', App.gameState a' = Some g'
               ∧ teamScores g' = teamScores g
               ∧ wordsUsed g' = wordsUsed g
               ∧ roundResults g' = results).
Proof.
  intros now results a g Hg team target potential a'.
  assert (Hpot : App.potentialScore (skipPenalty (settings g))
                   (get (teamScores g) team) results = potential)
    by apply potentialScore_roundDelta.
  destruct (ge potential target) eqn:Hge.
  - assert (∃ z, potential = Num z ∧ target ≤ z) as (z & Hz & Hle)
      by (apply ge_true; by rewrite Hge).
    assert (Ha' : a' = _)
      by (apply (handleRoundEnd_win now results a g z);
          [done|exact (eq_trans Hpot Hz)|done]).
    match type of Ha' with
    | _ = App.Build_AppModel _ (Some ?x) _ => set (g' := x) in Ha'
    end.
    assert (Hin : team ∈ checkWinCondition g').
    { apply elem_of_checkWinCondition. exists z.
      split; [apply lookup_insert_eq|done]. }
    assert (Hw : GamePlay.winners g' = checkWinCondition g').
    { apply winners_target. intros Hnil. rewrite Hnil in Hin.
      by apply not_elem_of_nil in Hin. }
    split_and!.
    + intros _. rewrite Ha'. split; [done|].
      exists g'. split_and!; try done.
      * cbn. by rewrite Hz.
      * by rewrite Hw.
      * split; [done|]. exists g'. split_and!; try done.
        rewrite Hw. intros Hnil. rewrite Hnil in Hin.
        by apply not_elem_of_nil in Hin.
    + rewrite Ha'. cbn. split; done.
    + done.
  - assert (Ha' : a' = _)
      by (apply (handleRoundEnd_no_win now results a g);
          [done|exact (eq_trans (f_equal (λ x, ge x target) Hpot) Hge)]).
    split_and!.
    + done.
    + rewrite Ha'. cbn. split; done.
    + intros _. rewrite Ha'. eexists. split; [reflexivity|done].
Qed.

(** C10.  When the results of the round would bring the acting team, the
    team [selectedTeams[currentTeamIndex]] whose turn it is, to the target
    or beyond, [handleRoundEnd] stores the new score of that team and of
    no other, appends the words of the round to [wordsUsed], and leaves
    the round-play screen up on a state in which that team is a winner:
    the game is over and the results screen is never shown.  The results
    screen, from which alone the confirmation runs, is reached exactly
    when the results do not bring the team on turn to the target, and then
    neither the scores nor [wordsUsed] have been touched. *)
Theorem handleRoundEnd_ends_game_without_confirmation :
  ∀ (now : Z) (results : list RoundResult) (a : App.AppModel) (g : GameState)
    (i : nat) (team : string),
    App.gameState a = Some g →
    currentTeamIndex g = Num (Z.of_nat i) →
    selectedTeams (settings g) !! i = Some team →
    let target := pointsRequired (settings g) in
    let potential :=
      add (get (teamScores g) team)
          (Spec.roundDelta (skipPenalty (settings g)) results) in
    let a' := App.handleRoundEnd now results a in
    (ge potential target = true →
       App.screen a' = App.GamePlayScreen
       ∧ ∃ g', App.gameState a' = Some g'
               ∧ teamScores g' = <[team := potential]> (teamScores g)
               ∧ (∀ other, other ≠ team →
                           teamScores g' !! other = teamScores g !! other)
               ∧ wordsUsed g' = wordsUsed g ++ (word <$> results)
               ∧ isRoundActive g' = false
               ∧ roundEndTime g' = Some now
               ∧ currentTeamIndex g' = currentTeamIndex g
               ∧ currentRound g' = currentRound g
               ∧ team ∈ GamePlay.winners g'
               ∧ Spec.gameOver a' (GamePlay.winners g'))
    ∧ (App.screen a' = App.RoundResultsScreen ↔ ge potential target = false)
    ∧ (ge potential target = false →
         ∃ g', App.gameState a' = Some g'
               ∧ teamScores g' = teamScores g
               ∧ wordsUsed g' = wordsUsed g
               ∧ roundResults g' = results).
Proof.
  intros now results a g i team Hg Hi Hteam target potential a'.
  pose proof (handleRoundEnd_at_key now results a g Hg) as Hkey.
  cbv zeta in Hkey.
  rewrite (currentTeamKey_on_turn g i team Hi Hteam) in Hkey.
  fold target potential a' in Hkey.
  destruct Hkey as (Hwin & Hscreen & Hshort).
  split_and!; [|exact Hscreen|exact Hshort].
  intros Hge. destruct (Hwin Hge)
    as (Hs & g' & Hg' & Hscores & Hwords & Hact & Hend & Hidx & Hround
        & Hin & Hover).
  split; [exact Hs|]. exists g'. split_and!; try done.
  intros other Hne. by rewrite Hscores, lookup_insert_ne.
Qed.

(** The second team [T2] of a two-team session to 10 points is on turn at
    5 points, [T1] at 3, and guesses five words: the round-end handler
    ends the game with [T2] the winner at 10 points, [T1] still at 3, and
    the results screen is not shown. *)
Lemma handleRoundEnd_ends_game_without_confirmation_witness :
  let a := {| App.screen := App.GamePlayScreen;
              App.gameState := Some (Demo.secondOnTurn false);
              App.savedGameState := None |} in
  let results := Sample.allGuessed (take 5 (words Sample.demoTheme)) in
  App.screen (App.handleRoundEnd 5000 results a) = App.GamePlayScreen
  ∧ Spec.gameOver (App.handleRoundEnd 5000 results a) ["T2"%string]
  ∧ ∃ g', App.gameState (App.handleRoundEnd 5000 results a) = Some g'
          ∧ teamScores g' !! "T2"%string = Some (Num 10)
          ∧ teamScores g' !! "T1"%string = Some (Num 3).
Proof.
  pose proof (handleRoundEnd_ends_game_without_confirmation 5000
                (Sample.allGuessed (take 5 (words Sample.demoTheme)))
                {| App.screen := App.GamePlayScreen;
                   App.gameState := Some (Demo.secondOnTurn false);
                   App.savedGameState := None |}
                (Demo.secondOnTurn false) 1%nat "T2"%string
                eq_refl eq_refl eq_refl) as (Hwin & _ & _).
  destruct (Hwin eq_refl)
    as (Hscreen & g' & Hg' & Hscores & Hother & _ & _ & _ & _ & _ & _ & Hover).
  split; [exact Hscreen|].
  split.
  - injection Hg' as <-. exact Hover.
  - exists g'. split; [exact Hg'|]. split.
    + rewrite Hscores. apply lookup_insert_eq.
    + rewrite (Hother "T1"%string ltac:(discriminate)). reflexivity.
Defined.

(** ** Confirming the results of a round *)

Lemma confirm_winner checkWin finalResults a g :
  App.gameState a = Some g →
  truthy (checkWin (App.scoredState finalResults g)) = true →
  App.handleRoundResultsConfirm checkWin finalResults a
  = {| App.screen := App.GamePlayScreen;
       App.gameState := Some (App.scoredState finalResults g);
       App.savedGameState := None |}.
Proof.
  intros Hg Hw. unfold App.handleRoundResultsConfirm. by rewrite Hg, Hw.
Qed.

Lemma confirm_no_winner checkWin finalResults a g :
  App.gameState a = Some g →
  truthy (checkWin (App.scoredState finalResults g)) = false →
  App.handleRoundResultsConfirm checkWin finalResults a
  = {| App.screen := App.GamePlayScreen;
       App.gameState := Some (App.nextTurn (App.scoredState finalResults g));
       App.savedGameState := App.savedGameState a |}.
Proof.
  intros Hg Hw. unfold App.handleRoundResultsConfirm. by rewrite Hg, Hw.
Qed.

(** The array of winners is truthy whatever it holds, so a caller that
    tests it as a condition takes the winner branch on every input; the
    single name is truthy exactly when it is a non-empty name. *)
Lemma truthy_winnersArray g : truthy (App.winnersArray g) = true.
Proof. reflexivity. Qed.

Lemma truthy_firstWinner_nil g :
  checkWinCondition g = [] → truthy (App.firstWinner g) = false.
Proof. intros Hnil. unfold App.firstWinner. by rewrite Hnil. Qed.

(** C3.  When the results are confirmed and, with the new score counted,
    the set of winners is not empty (and the value [checkWinCondition]
    returned is taken as a winner by the handler), the session is over at
    once: the round-play screen shows the winners, and the state it shows
    is the scored state itself, with [currentTeamIndex] and [currentRound]
    as they were before the confirmation, so that the turn has not
    rotated. *)
Theorem confirm_with_winner_ends_game_without_rotation :
  ∀ (checkWin : GameState → JsVal) (finalResults : list RoundResult)
    (a : App.AppModel) (g : GameState),
    App.gameState a = Some g →
    let scored := App.scoredState finalResults g in
    checkWinCondition scored ≠ [] →
    truthy (checkWin scored) = true →
    let a' := App.handleRoundResultsConfirm checkWin finalResults a in
    App.gameState a' = Some scored
    ∧ Spec.gameOver a' (checkWinCondition scored)
    ∧ currentTeamIndex scored = currentTeamIndex g
    ∧ currentRound scored = currentRound g
    ∧ getCurrentTeam scored = getCurrentTeam g.
Proof.
  intros checkWin finalResults a g Hg scored Hne Hw a'.
  assert (Ha' : a' = _) by (by apply confirm_winner).
  rewrite Ha'. split_and!; try done.
  split; [done|]. exists scored. split_and!; try done.
  by apply winners_target.
Qed.

(** Team [T1] of a fresh two-team session to 10 points has ten guessed
    words confirmed in its first round: the game is over with winners
    [{T1}], and the team on turn is still [T1], not [T2]. *)
Lemma confirm_with_winner_ends_game_without_rotation_witness :
  let a := {| App.screen := App.RoundResultsScreen;
              App.gameState := Some Sample.gameT1T2;
              App.savedGameState := None |} in
  let results := Sample.allGuessed (take 10 (words Sample.demoTheme)) in
  let a' := App.handleRoundResultsConfirm App.firstWinner results a in
  Spec.gameOver a' ["T1"%string]
  ∧ (getCurrentTeam <$> App.gameState a') = Some (Some "T1"%string).
Proof.
  pose proof (confirm_with_winner_ends_game_without_rotation App.firstWinner
                (Sample.allGuessed (take 10 (words Sample.demoTheme)))
                {| App.screen := App.RoundResultsScreen;
                   App.gameState := Some Sample.gameT1T2;
                   App.savedGameState := None |}
                Sample.gameT1T2 eq_refl ltac:(discriminate) eq_refl)
    as (Hg' & Hover & _ & _ & Hteam).
  split; [exact Hover|].
  exact (f_equal (fmap getCurrentTeam) Hg').
Defined.

(** ** Turn rotation *)

Lemma rem_next_index (i n : Z) :
  0 ≤ i < n → rem (add (Num i) 1) n = Num ((i + 1) mod n).
Proof.
  intros Hi. cbn. destruct (Z.eqb_spec n 0); [lia|].
  f_equal. apply Z.rem_mod_nonneg; lia.
Qed.

Lemma nextTurn_in_range g :
  Spec.teamIndexInRange g → Spec.teamIndexInRange (App.nextTurn g).
Proof.
  intros (i & Hi & Hrange). unfold Spec.teamIndexInRange. cbn.
  rewrite Hi, rem_next_index by done.
  eexists. split; [done|]. apply Z.mod_pos_bound. lia.
Qed.

(** The rotation code of [handleRoundResultsConfirm], from "Move to next
    team" on, where it is reached: when the value [checkWinCondition]
    returned is falsy, [currentTeamIndex] becomes
    [(currentTeamIndex + 1) mod teamCount]; [currentRound] grows by one
    exactly when that new index is [0], and is unchanged otherwise;
    [roundResults] is emptied, [roundStartTime] is [null] and
    [currentWordIndex] is [0].  An index within
    [0 <= currentTeamIndex < selectedTeams.length] stays within it. *)
Lemma rotation_code_passes_the_turn :
  ∀ (checkWin : GameState → JsVal) (finalResults : list RoundResult)
    (a : App.AppModel) (g : GameState),
    App.gameState a = Some g →
    let scored := App.scoredState finalResults g in
    let teamCount := Z.of_nat (length (selectedTeams (settings g))) in
    checkWinCondition scored = [] →
    truthy (checkWin scored) = false →
    ∃ g', App.gameState (App.handleRoundResultsConfirm checkWin finalResults a)
          = Some g'
          ∧ currentTeamIndex g' = rem (add (currentTeamIndex g) 1) teamCount
          ∧ (∀ i, currentTeamIndex g = Num i → 0 ≤ i < teamCount →
                  currentTeamIndex g' = Num ((i + 1) mod teamCount)
                  ∧ (currentRound g'
                     = if decide ((i + 1) mod teamCount = 0)
                       then currentRound g + 1 else currentRound g))
          ∧ currentRound g'
            = (if is_zero (currentTeamIndex g')
               then currentRound g + 1 else currentRound g)
          ∧ roundResults g' = []
          ∧ roundStartTime g' = None
          ∧ currentWordIndex g' = 0%nat
          ∧ isRoundActive g' = false
          ∧ selectedTeams (settings g') = selectedTeams (settings g)
          ∧ (Spec.teamIndexInRange g → Spec.teamIndexInRange g').
Proof.
  intros checkWin finalResults a g Hg scored teamCount Hnil Hw.
  exists (App.nextTurn scored).
  split; [by rewrite (confirm_no_winner checkWin finalResults a g)|].
  split_and!; try done.
  - intros i Hi Hrange. cbn. rewrite Hi, rem_next_index by done.
    fold teamCount. split; [done|]. cbn [is_zero].
    by destruct (Z.eqb_spec ((i + 1) mod teamCount) 0); case_decide.
  - intros Hin. by apply (nextTurn_in_range scored).
Qed.

(** A two-team session with no winner, the helper read as one name or
    [null]: confirming the results of [T1] passes the turn to [T2] within
    round [1]; confirming those of [T2] passes it back to [T1] and opens
    round [2]. *)
Lemma rotation_code_passes_the_turn_witness :
  let a := {| App.screen := App.RoundResultsScreen;
              App.gameState := Some Sample.gameT1T2;
              App.savedGameState := None |} in
  let a1 := App.handleRoundResultsConfirm App.firstWinner
              Sample.oneGuessedOneSkipped a in
  let a2 := App.handleRoundResultsConfirm App.firstWinner
              Sample.oneGuessedOneSkipped a1 in
  ((λ g, (currentTeamIndex g, currentRound g)) <$> App.gameState a1)
  = Some (Num 1, 1)
  ∧ ((λ g, (currentTeamIndex g, currentRound g)) <$> App.gameState a2)
    = Some (Num 0, 2).
Proof.
  cbv zeta. split.
  - destruct (rotation_code_passes_the_turn App.firstWinner
                Sample.oneGuessedOneSkipped
                {| App.screen := App.RoundResultsScreen;
                   App.gameState := Some Sample.gameT1T2;
                   App.savedGameState := None |}
                Sample.gameT1T2 eq_refl eq_refl eq_refl)
      as (g' & Hg' & _ & Hidx & _).
    destruct (Hidx 0 eq_refl ltac:(cbn; lia)) as [Hi Hr].
    rewrite Hg'. cbn [fmap option_fmap option_map]. by rewrite Hi, Hr.
  - reflexivity.
Defined.



(** ** The end of a round by timeout *)

Lemma endRound_delivers timedOut now p :
  (GamePlay.endRound timedOut now p).2 = GamePlay.roundResultsRef p.
Proof. reflexivity. Qed.

Lemma timerTick_expired now p s :
  roundStartTime (GamePlay.gameState p) = Some s →
  GamePlay.timeLeft (roundTimer (settings (GamePlay.gameState p))) s now ≤ 0 →
  ∃ pEnd, GamePlay.timerTick now p = (pEnd, Some (GamePlay.roundResultsRef p))
          ∧ GamePlay.roundEndedByTimeout pEnd = true
          ∧ isRoundActive (GamePlay.gameState pEnd) = false
          ∧ GamePlay.roundResults pEnd = GamePlay.roundResultsRef p.
Proof.
  intros Hs Hleft. unfold GamePlay.timerTick. rewrite Hs.
  destruct (Z.leb_spec (GamePlay.timeLeft
                          (roundTimer (settings (GamePlay.gameState p))) s now) 0);
    [|lia].
  eexists. split; [reflexivity|done].
Qed.

Lemma handleWordAction_ref g p :
  GamePlay.roundResultsRef (GamePlay.handleWordAction g p)
  = GamePlay.roundResultsRef p
  ∧ GamePlay.gameState (GamePlay.handleWordAction g p) = GamePlay.gameState p.
Proof. unfold GamePlay.handleWordAction. by destruct (GamePlay.wordActionAccepted p). Qed.

Lemma wordActionAccepted_flagged p :
  GamePlay.cheatingDetected p = true → GamePlay.wordActionAccepted p = false.
Proof.
  intros Hc. unfold GamePlay.wordActionAccepted. rewrite Hc.
  by rewrite orb_true_r.
Qed.

Lemma resolveWords_cons g now actions p :
  GamePlay.resolveWords ((g, now) :: actions) p
  = GamePlay.resolveWords actions (GamePlay.resolveWord g now p).1.
Proof. reflexivity. Qed.

Lemma resolveWord_rejected g now p :
  GamePlay.wordActionAccepted p = false → GamePlay.resolveWord g now p = (p, None).
Proof. intros Hacc. unfold GamePlay.resolveWord. by rewrite Hacc. Qed.

Lemma resolveWords_flagged actions p :
  GamePlay.cheatingDetected p = true → GamePlay.resolveWords actions p = p.
Proof.
  intros Hc. induction actions as [|[g now] actions IH]; [done|].
  by rewrite resolveWords_cons, resolveWord_rejected
    by (by apply wordActionAccepted_flagged).
Qed.

Lemma wordOnShow_accepted p :
  Spec.wordOnShow p →
  GamePlay.cheatingDetected p = false →
  GamePlay.wordActionAccepted p = true.
Proof.
  intros (Hcard & _ & Hword & Hne) Hc.
  unfold GamePlay.wordActionAccepted. rewrite Hcard, Hc.
  rewrite Forall_lookup in Hne. specialize (Hne _ _ Hword).
  unfold falsy_str. by case_decide.
Qed.

(** One word action on a word on show, neither flagged nor the last of
    the draw order: the result of the word shown is appended and the next
    word comes on show. *)
Lemma resolveWord_advance g now p :
  Spec.wordOnShow p →
  GamePlay.cheatingDetected p = false →
  GamePlay.checkForCheating (GamePlay.roundStartTimeRef p) now
    (GamePlay.guessedCount
       (GamePlay.roundResults p
        ++ [ {| word := GamePlay.currentWord p; guessed := g |} ])) = false →
  (S (currentWordIndex (GamePlay.gameState p)) < length (GamePlay.roundWords p))%nat →
  let p' := (GamePlay.resolveWord g now p).1 in
  Spec.wordOnShow p'
  ∧ GamePlay.roundResultsRef p'
    = GamePlay.roundResultsRef p
      ++ [ {| word := GamePlay.currentWord p; guessed := g |} ]
  ∧ GamePlay.roundWords p' = GamePlay.roundWords p
  ∧ GamePlay.gameState p'
    = Spec.atWord (S (currentWordIndex (GamePlay.gameState p)))
                  (GamePlay.gameState p)
  ∧ GamePlay.cheatingDetected p' = false.
Proof.
  intros Hshow Hc Hcheat Hlt p'.
  pose proof (wordOnShow_accepted p Hshow Hc) as Hacc.
  destruct Hshow as (Hcard & Hsync & Hword & Hne).
  destruct (lookup_lt_is_Some_2 (GamePlay.roundWords p)
              (S (currentWordIndex (GamePlay.gameState p))) Hlt) as [w' Hw'].
  assert (Hp' : p' = GamePlay.wordAnimationDone
                       (GamePlay.wordActionTimeout g now
                          (GamePlay.handleWordAction g p)).1).
  { unfold p', GamePlay.resolveWord. rewrite Hacc.
    unfold GamePlay.handleWordAction. rewrite Hacc.
    unfold GamePlay.wordActionTimeout. cbn.
    rewrite Hcheat. cbn.
    replace (currentWordIndex (GamePlay.gameState p) + 1)%nat
      with (S (currentWordIndex (GamePlay.gameState p))) by lia.
    destruct (Nat.leb_spec (length (GamePlay.roundWords p))
                (S (currentWordIndex (GamePlay.gameState p)))); [lia|].
    reflexivity. }
  rewrite Hp'.
  unfold GamePlay.handleWordAction. rewrite Hacc.
  unfold GamePlay.wordActionTimeout. cbn.
  rewrite Hcheat. cbn.
  replace (currentWordIndex (GamePlay.gameState p) + 1)%nat
    with (S (currentWordIndex (GamePlay.gameState p))) by lia.
  destruct (Nat.leb_spec (length (GamePlay.roundWords p))
              (S (currentWordIndex (GamePlay.gameState p)))); [lia|].
  cbn. rewrite Hw'. cbn.
  split_and!; try done.
  by rewrite Hsync.
Qed.

Lemma resolveWord_flag g now p :
  GamePlay.wordActionAccepted p = true →
  GamePlay.checkForCheating (GamePlay.roundStartTimeRef p) now
    (GamePlay.guessedCount
       (GamePlay.roundResults p
        ++ [ {| word := GamePlay.currentWord p; guessed := g |} ])) = true →
  GamePlay.cheatingDetected (GamePlay.resolveWord g now p).1 = true.
Proof.
  intros Hacc Hcheat. unfold GamePlay.resolveWord. rewrite Hacc.
  unfold GamePlay.handleWordAction. rewrite Hacc.
  unfold GamePlay.wordActionTimeout. cbn. by rewrite Hcheat.
Qed.

(** A run of word actions that ends unflagged before the draw order is
    exhausted has recorded one result per action, in order, and has the
    next word on show. *)
Lemma resolveWords_unflagged actions : ∀ p,
  Spec.wordOnShow p →
  (currentWordIndex (GamePlay.gameState p) + length actions
   < length (GamePlay.roundWords p))%nat →
  GamePlay.cheatingDetected (GamePlay.resolveWords actions p) = false →
  let p' := GamePlay.resolveWords actions p in
  Spec.wordOnShow p'
  ∧ GamePlay.roundResultsRef p'
    = GamePlay.roundResultsRef p
      ++ Spec.resolved (GamePlay.roundWords p)
           (currentWordIndex (GamePlay.gameState p)) actions.*1
  ∧ GamePlay.roundWords p' = GamePlay.roundWords p
  ∧ GamePlay.gameState p'
    = Spec.atWord (currentWordIndex (GamePlay.gameState p) + length actions)
                  (GamePlay.gameState p).
Proof.
  induction actions as [|[g now] actions IH]; intros p Hshow Hlen Hfinal p'.
  - unfold p', Spec.resolved. cbn.
    rewrite zip_with_nil_r, app_nil_r, Nat.add_0_r.
    split_and!; try done. by destruct (GamePlay.gameState p).
  - unfold p'. rewrite resolveWords_cons in Hfinal |- *. cbn [length] in Hlen.
    assert (Hc : GamePlay.cheatingDetected p = false).
    { destruct (GamePlay.cheatingDetected p) eqn:E; [|done].
      rewrite (resolveWord_rejected g now p (wordActionAccepted_flagged p E))
        in Hfinal.
      cbn [fst] in Hfinal.
      by rewrite (resolveWords_flagged actions p E), E in Hfinal. }
    assert (Hcheat :
      GamePlay.checkForCheating (GamePlay.roundStartTimeRef p) now
        (GamePlay.guessedCount
           (GamePlay.roundResults p
            ++ [ {| word := GamePlay.currentWord p; guessed := g |} ])) = false).
    { destruct (GamePlay.checkForCheating _ _ _) eqn:E; [|done].
      pose proof (resolveWord_flag g now p (wordOnShow_accepted p Hshow Hc) E)
        as Hflag.
      by rewrite (resolveWords_flagged actions _ Hflag), Hflag in Hfinal. }
    destruct (resolveWord_advance g now p Hshow Hc Hcheat ltac:(lia))
      as (Hshow1 & Href1 & Hws1 & Hgs1 & Hc1).
    destruct (IH (GamePlay.resolveWord g now p).1 Hshow1
                ltac:(rewrite Hgs1, Hws1; cbn; lia) Hfinal)
      as (Hshow' & Href' & Hws' & Hgs').
    split_and!; try done.
    + rewrite Href', Href1, Hws1, Hgs1, <- app_assoc. f_equal.
      destruct Hshow as (_ & _ & Hword & _).
      unfold Spec.resolved. cbn [fmap list_fmap fst].
      cbn [Spec.atWord currentWordIndex].
      rewrite (drop_S _ _ _ Hword). reflexivity.
    + congruence.
    + rewrite Hgs', Hgs1. unfold Spec.atWord. cbn. f_equal. lia.
Qed.

Lemma resolved_length order from answers :
  (from + length answers ≤ length order)%nat →
  length (Spec.resolved order from answers) = length answers.
Proof.
  intros Hle. unfold Spec.resolved.
  rewrite length_zip_with, length_drop. lia.
Qed.

(** C7.  A round that ends by timer expiry hands over exactly the results
    of the word actions resolved before the expiry.  From a state with a
    word on show, let a run of word actions be resolved without a cheat
    flag and without exhausting the draw order, and let the timer then
    expire at [now]: the interval callback ends the round as timed out and
    delivers the results recorded before the run followed by one result
    per action of the run, in order, and nothing else.  The word then on
    show, the next of the draw order, is not among what is delivered by
    position, and a click on it that has not yet been resolved changes
    nothing of what is delivered. *)
Theorem timeout_delivers_exactly_the_resolved_words :
  ∀ (actions : list (bool * Z)) (now s : Z) (p : GamePlay.Play),
    Spec.wordOnShow p →
    (currentWordIndex (GamePlay.gameState p) + length actions
     < length (GamePlay.roundWords p))%nat →
    GamePlay.cheatingDetected (GamePlay.resolveWords actions p) = false →
    GamePlay.timerRunning p = true →
    roundStartTime (GamePlay.gameState p) = Some s →
    GamePlay.timeLeft (roundTimer (settings (GamePlay.gameState p))) s now ≤ 0 →
    let shown := GamePlay.resolveWords actions p in
    let from := currentWordIndex (GamePlay.gameState p) in
    ∃ pEnd delivered,
      GamePlay.timerRunning shown = true
      ∧ GamePlay.timerTick now shown = (pEnd, Some delivered)
      ∧ delivered
        = GamePlay.roundResultsRef p
          ++ Spec.resolved (GamePlay.roundWords p) from actions.*1
      ∧ length delivered
        = (length (GamePlay.roundResultsRef p) + length actions)%nat
      ∧ GamePlay.roundWords p !! (from + length actions)%nat
        = Some (GamePlay.currentWord shown)
      ∧ GamePlay.roundEndedByTimeout pEnd = true
      ∧ isRoundActive (GamePlay.gameState pEnd) = false
      ∧ (∀ g, (GamePlay.timerTick now (GamePlay.handleWordAction g shown)).2
              = Some delivered).
Proof.
  intros actions now s p Hshow Hlen Hfinal Hrun Hs Hleft shown from.
  destruct (resolveWords_unflagged actions p Hshow Hlen Hfinal)
    as (Hshow' & Href & Hws & Hgs).
  fold shown in Hshow', Href, Hws, Hgs.
  assert (Hst : roundStartTime (GamePlay.gameState shown)
                = roundStartTime (GamePlay.gameState p)) by by rewrite Hgs.
  assert (Hset : settings (GamePlay.gameState shown)
                 = settings (GamePlay.gameState p)) by by rewrite Hgs.
  assert (Hidx : currentWordIndex (GamePlay.gameState shown)
                 = (currentWordIndex (GamePlay.gameState p) + length actions)%nat)
    by by rewrite Hgs.
  destruct (timerTick_expired now shown s) as (pEnd & Htick & Hto & Hact & _).
  { by rewrite Hst. }
  { by rewrite Hset. }
  exists pEnd, (GamePlay.roundResultsRef shown).
  split_and!; try done.
  - unfold GamePlay.timerRunning in Hrun |- *. by rewrite Hgs.
  - rewrite Href, length_app.
    rewrite resolved_length by (rewrite length_fmap; lia).
    by rewrite length_fmap.
  - destruct Hshow' as (_ & _ & Hword & _).
    unfold from. by rewrite <- Hidx, <- Hws.
  - intros g.
    destruct (handleWordAction_ref g shown) as [Hr Hg].
    destruct (timerTick_expired now (GamePlay.handleWordAction g shown) s)
      as (pEnd' & Htick' & _).
    { by rewrite Hg, Hst. }
    { by rewrite Hg, Hset. }
    by rewrite Htick', Hr.
Qed.

(** The first round of a session, begun at instant [1000] with 30 seconds
    on the clock: seven words are resolved, the eighth, [w8], is on show
    when the timer expires at [31000], and seven results are delivered. *)
Lemma timeout_delivers_exactly_the_resolved_words_witness :
  let shown := GamePlay.resolveWords Sample.sevenActions Sample.firstRound in
  ∃ pEnd delivered,
    GamePlay.timerTick 31000 shown = (pEnd, Some delivered)
    ∧ length delivered = 7%nat
    ∧ GamePlay.currentWord shown = "w8"%string.
Proof.
  cbv zeta.
  destruct (timeout_delivers_exactly_the_resolved_words
              Sample.sevenActions 31000 1000 Sample.firstRound)
    as (pEnd & delivered & _ & Htick & _ & Hlen & _).
  - split_and!; try reflexivity.
    vm_compute. repeat (constructor; [discriminate|]). constructor.
  - vm_compute. lia.
  - reflexivity.
  - reflexivity.
  - reflexivity.
  - vm_compute. discriminate.
  - exists pEnd, delivered. split_and!; [exact Htick|exact Hlen|reflexivity].
Defined.

(** ** Pausing at most once *)

Lemma stopRound_marks_pause rnd now p :
  GamePlay.roundPausedOnce (GamePlay.stopRound rnd now p) = true
  ∧ isPaused (GamePlay.gameState (GamePlay.stopRound rnd now p)) = true.
Proof. done. Qed.

Lemma resumeRound_keeps_mark now p :
  GamePlay.roundPausedOnce (GamePlay.resumeRound now p)
  = GamePlay.roundPausedOnce p.
Proof. reflexivity. Qed.

Lemma pauseEnabled_false p :
  GamePlay.roundPausedOnce p = true ∨ isPaused (GamePlay.gameState p) = true →
  GamePlay.pauseEnabled p = false.
Proof.
  intros Hp. unfold GamePlay.pauseEnabled.
  destruct (GamePlay.render p); try done.
  destruct Hp as [-> | ->]; [by rewrite orb_true_r, andb_false_r|done].
Qed.

(** [stopRound] itself carries no guard.  Run on a round that was paused
    once and resumed, it pauses the round again; run on a round that is
    paused, it overwrites the remaining time captured by the first pause
    (26 seconds) with one computed from a start instant of [0]
    (22 seconds). *)
Lemma stopRound_not_refused_by_handler :
  GamePlay.roundPausedOnce Sample.resumedRound = true
  ∧ isPaused (GamePlay.gameState Sample.resumedRound) = false
  ∧ isPaused (GamePlay.gameState
                (GamePlay.stopRound Sample.keepOrder 12000 Sample.resumedRound))
    = true
  ∧ GamePlay.stopRound Sample.keepOrder 12000 Sample.resumedRound
    ≠ Sample.resumedRound
  ∧ isPaused (GamePlay.gameState Sample.pausedRound) = true
  ∧ GamePlay.pausedRemainingTime Sample.pausedRound = Some 26
  ∧ GamePlay.pausedRemainingTime
      (GamePlay.stopRound Sample.keepOrder 8000 Sample.pausedRound) = Some 22
  ∧ GamePlay.stopRound Sample.keepOrder 8000 Sample.pausedRound
    ≠ Sample.pausedRound.
Proof.
  split_and!; try reflexivity.
  - intros Heq.
    apply (f_equal (λ p, isPaused (GamePlay.gameState p))) in Heq.
    discriminate Heq.
  - intros Heq. apply (f_equal GamePlay.pausedRemainingTime) in Heq.
    vm_compute in Heq. discriminate Heq.
Qed.

(** C8, as the code has it.  A round is paused at most once through its
    Pause button: the button is disabled once a pause has occurred in the
    round ([roundPausedOnce]) and is not rendered while the round is
    paused, so a click in either state leaves the state unchanged.  Every
    pause sets [roundPausedOnce], and a click on Resume keeps it set.  The
    handler [stopRound] behind the button has no such check of its own. *)
Theorem pause_button_refuses_second_pause :
  ∀ (rnd : nat → nat) (now : Z) (p : GamePlay.Play),
    GamePlay.roundPausedOnce p = true ∨ isPaused (GamePlay.gameState p) = true →
    GamePlay.pauseEnabled p = false
    ∧ GamePlay.clickPause rnd now p = p
    ∧ (∀ rnd' now' q,
         let paused := GamePlay.stopRound rnd' now' q in
         let resumed := GamePlay.clickResume now paused in
         GamePlay.roundPausedOnce paused = true
         ∧ GamePlay.roundPausedOnce resumed = true
         ∧ GamePlay.clickPause rnd now paused = paused
         ∧ GamePlay.clickPause rnd now resumed = resumed).
Proof.
  intros rnd now p Hp.
  assert (Hclick : ∀ q,
            GamePlay.roundPausedOnce q = true
            ∨ isPaused (GamePlay.gameState q) = true →
            GamePlay.clickPause rnd now q = q).
  { intros q Hq. unfold GamePlay.clickPause.
    by rewrite (pauseEnabled_false q Hq). }
  split_and!.
  - by apply pauseEnabled_false.
  - by apply Hclick.
  - intros rnd' now' q paused resumed.
    assert (Hres : GamePlay.roundPausedOnce resumed = true).
    { unfold resumed, GamePlay.clickResume.
      by destruct (GamePlay.resumeEnabled paused). }
    split_and!; try done.
    + apply Hclick. by left.
    + apply Hclick. by left.
Qed.

(** The round paused at [5000] and resumed at [9000]: a click on Pause at
    [12000] changes nothing. *)
Lemma pause_button_refuses_second_pause_witness :
  GamePlay.clickPause Sample.keepOrder 12000 Sample.resumedRound
  = Sample.resumedRound.
Proof.
  exact (proj1 (proj2 (pause_button_refuses_second_pause
                         Sample.keepOrder 12000 Sample.resumedRound
                         (or_introl eq_refl)))).
Defined.

(** * Further properties of the code *)

(** ** The countdown *)

Lemma ceil_div_le_iff (a k : Z) : ceil_div a 1000 ≤ k ↔ a ≤ 1000 * k.
Proof.
  unfold ceil_div.
  pose proof (Z.mul_div_le (- a) 1000).
  pose proof (Z.mul_succ_div_gt (- a) 1000). lia.
Qed.

Lemma timeLeft_le_iff d s now k :
  0 ≤ k → GamePlay.timeLeft d s now ≤ k ↔ d * 1000 - (now - s) ≤ 1000 * k.
Proof.
  intros Hk. unfold GamePlay.timeLeft.
  rewrite <- ceil_div_le_iff. lia.
Qed.

(** X1.  The time left is never negative; it is [0] exactly from the
    instant [roundTimer * 1000] ms after the start on; it is [k] seconds
    exactly while more than [k - 1] and at most [k] seconds remain in real
    time, so the display rounds up; it never grows as time passes; and at
    the start instant of a round it is the whole round time. *)
Theorem timeLeft_counts_down :
  ∀ d s now : Z,
    0 ≤ GamePlay.timeLeft d s now
    ∧ (GamePlay.timeLeft d s now = 0 ↔ d * 1000 ≤ now - s)
    ∧ (∀ k, 0 < k →
         GamePlay.timeLeft d s now = k
         ↔ 1000 * (k - 1) < d * 1000 - (now - s) ≤ 1000 * k)
    ∧ (∀ later, now ≤ later →
         GamePlay.timeLeft d s later ≤ GamePlay.timeLeft d s now)
    ∧ (0 ≤ d → GamePlay.timeLeft d s s = d).
Proof.
  intros d s now.
  pose proof (timeLeft_nonneg d s now) as Hnn.
  split_and!.
  - done.
  - pose proof (timeLeft_le_iff d s now 0). lia.
  - intros k Hk.
    pose proof (timeLeft_le_iff d s now k).
    pose proof (timeLeft_le_iff d s now (k - 1)). lia.
  - intros later Hlater.
    pose proof (timeLeft_nonneg d s later).
    apply timeLeft_le_iff; [done|].
    pose proof (timeLeft_le_iff d s now (GamePlay.timeLeft d s now)). lia.
  - intros Hd.
    pose proof (timeLeft_nonneg d s s).
    pose proof (timeLeft_le_iff d s s d).
    destruct (decide (d = 0)) as [->|];
      [pose proof (timeLeft_le_iff 0 s s 0); lia|].
    pose proof (timeLeft_le_iff d s s (d - 1)). lia.
Qed.

(** X2.  A pause takes the paused time out of the countdown.  When a round
    is paused at [t1] and resumed at [t2], the time left at any later
    instant is that of a fresh countdown of the captured seconds started
    at [t2], whatever the length of the pause.  The capture rounds the
    real remainder up to whole seconds, so a pause never costs time and
    gives back less than one second. *)
Theorem resume_continues_from_captured_seconds :
  ∀ (rnd : nat → nat) (t1 t2 now : Z) (p : GamePlay.Play),
    let d := roundTimer (settings (GamePlay.gameState p)) in
    let s := or_zero (roundStartTime (GamePlay.gameState p)) in
    let captured := GamePlay.timeLeft d s t1 in
    let resumed := GamePlay.resumeRound t2 (GamePlay.stopRound rnd t1 p) in
    GamePlay.timeLeft d (or_zero (roundStartTime (GamePlay.gameState resumed))) now
    = GamePlay.timeLeft captured t2 now
    ∧ d * 1000 - (t1 - s) ≤ captured * 1000
    ∧ captured * 1000 < Z.max 0 (d * 1000 - (t1 - s)) + 1000
    ∧ isPaused (GamePlay.gameState resumed) = false
    ∧ GamePlay.pausedRemainingTime resumed = None.
Proof.
  intros rnd t1 t2 now p d s captured resumed.
  pose proof (timeLeft_nonneg d s t1) as Hnn. fold captured in Hnn.
  split_and!; try reflexivity.
  - cbn. fold d s captured. unfold GamePlay.timeLeft at 1 2.
    f_equal. f_equal. lia.
  - pose proof (timeLeft_le_iff d s t1 captured Hnn). fold captured in H. lia.
  - destruct (decide (captured = 0)) as [->|Hpos]; [lia|].
    pose proof (timeLeft_le_iff d s t1 (captured - 1)). fold captured in H. lia.
Qed.

Lemma timerTick_running now p s :
  roundStartTime (GamePlay.gameState p) = Some s →
  0 < GamePlay.timeLeft (roundTimer (settings (GamePlay.gameState p))) s now →
  (GamePlay.timerTick now p).2 = None
  ∧ GamePlay.gameState (GamePlay.timerTick now p).1 = GamePlay.gameState p
  ∧ GamePlay.roundResultsRef (GamePlay.timerTick now p).1
    = GamePlay.roundResultsRef p
  ∧ GamePlay.currentTime (GamePlay.timerTick now p).1
    = GamePlay.timeLeft (roundTimer (settings (GamePlay.gameState p))) s now.
Proof.
  intros Hs Hleft. unfold GamePlay.timerTick. rewrite Hs.
  destruct (Z.leb_spec (GamePlay.timeLeft
                          (roundTimer (settings (GamePlay.gameState p))) s now) 0);
    [lia|done].
Qed.

(** X3.  The interval ends a round once and only at expiry.  While time
    is left a tick refreshes the displayed time and nothing else: no
    results are delivered and the game state is untouched.  At the first
    tick with no time left the round ends as timed out and the condition
    under which the interval runs no longer holds, so no further tick can
    end it again.  A paused round has no start instant and a tick on it
    does nothing at all. *)
Theorem timerTick_ends_round_once :
  ∀ (now s : Z) (p : GamePlay.Play),
    roundStartTime (GamePlay.gameState p) = Some s →
    let left :=
      GamePlay.timeLeft (roundTimer (settings (GamePlay.gameState p))) s now in
    let p' := (GamePlay.timerTick now p).1 in
    (0 < left →
       (GamePlay.timerTick now p).2 = None
       ∧ GamePlay.gameState p' = GamePlay.gameState p
       ∧ GamePlay.roundResultsRef p' = GamePlay.roundResultsRef p
       ∧ GamePlay.currentTime p' = left)
    ∧ (left = 0 →
         (GamePlay.timerTick now p).2 = Some (GamePlay.roundResultsRef p)
         ∧ GamePlay.timerRunning p' = false
         ∧ GamePlay.roundEndedByTimeout p' = true
         ∧ isRoundActive (GamePlay.gameState p') = false
         ∧ roundEndTime (GamePlay.gameState p') = Some now
         ∧ GamePlay.currentTime p' = 0)
    ∧ (∀ rnd t,
         GamePlay.timerRunning (GamePlay.stopRound rnd t p) = false
         ∧ GamePlay.timerTick now (GamePlay.stopRound rnd t p)
           = (GamePlay.stopRound rnd t p, None)).
Proof.
  intros now s p Hs left p'. split_and!.
  - intros Hleft. by apply timerTick_running.
  - intros Hleft.
    destruct (timerTick_expired now p s Hs ltac:(fold left; lia))
      as (pEnd & Htick & Hto & Hact & _).
    unfold p'. rewrite Htick. cbn [fst snd].
    split_and!; try done.
    + unfold GamePlay.timerRunning. by rewrite Hact.
    + unfold GamePlay.timerTick in Htick. rewrite Hs in Htick.
      fold left in Htick. rewrite Hleft in Htick. cbn in Htick.
      by injection Htick as <-.
    + unfold GamePlay.timerTick in Htick. rewrite Hs in Htick.
      fold left in Htick. rewrite Hleft in Htick. cbn in Htick.
      by injection Htick as <-.
  - intros rnd t. split; [|reflexivity].
    unfold GamePlay.timerRunning. cbn. by rewrite andb_false_r.
Qed.

(** The first round, begun at [1000] with 30 seconds: a tick at [12000]
    shows 19 seconds and delivers nothing; a tick at [31000] ends the
    round. *)
Lemma timerTick_ends_round_once_witness :
  (GamePlay.timerTick 12000 Sample.firstRound).2 = None
  ∧ GamePlay.currentTime (GamePlay.timerTick 12000 Sample.firstRound).1 = 19
  ∧ GamePlay.timerRunning (GamePlay.timerTick 31000 Sample.firstRound).1 = false.
Proof.
  pose proof (timerTick_ends_round_once 12000 1000 Sample.firstRound eq_refl)
    as (Hrun & _ & _).
  pose proof (timerTick_ends_round_once 31000 1000 Sample.firstRound eq_refl)
    as (_ & Hend & _).
  destruct (Hrun ltac:(vm_compute; reflexivity)) as (Hnone & _ & _ & Htime).
  destruct (Hend ltac:(vm_compute; reflexivity)) as (_ & Hstop & _).
  split_and!; [exact Hnone|exact Htime|exact Hstop].
Defined.

(** ** What a round in play leaves alone *)

Lemma same_refl g : Standing.same g g.
Proof. by repeat split. Qed.

Lemma same_trans g1 g2 g3 :
  Standing.same g1 g2 → Standing.same g2 g3 → Standing.same g1 g3.
Proof.
  intros (? & ? & ? & ? & ?) (? & ? & ? & ? & ?).
  repeat split; congruence.
Qed.

Lemma wordActionTimeout_same g now p :
  Standing.same (GamePlay.gameState p)
    (GamePlay.gameState (GamePlay.wordActionTimeout g now p).1).
Proof.
  unfold GamePlay.wordActionTimeout.
  destruct (GamePlay.checkForCheating _ _ _); [apply same_refl|].
  destruct (_ <=? _)%nat; by repeat split.
Qed.

Lemma resolveWord_same g now p :
  Standing.same (GamePlay.gameState p)
    (GamePlay.gameState (GamePlay.resolveWord g now p).1).
Proof.
  unfold GamePlay.resolveWord.
  destruct (GamePlay.wordActionAccepted p) eqn:Hacc; [|apply same_refl].
  pose proof (wordActionTimeout_same g now (GamePlay.handleWordAction g p)) as H.
  rewrite (proj2 (handleWordAction_ref g p)) in H.
  by destruct (GamePlay.wordActionTimeout g now (GamePlay.handleWordAction g p))
    as [p' []].
Qed.

Lemma resolveWords_same actions : ∀ p,
  Standing.same (GamePlay.gameState p)
    (GamePlay.gameState (GamePlay.resolveWords actions p)).
Proof.
  induction actions as [|[g now] actions IH]; intros p; [apply same_refl|].
  rewrite resolveWords_cons.
  eapply same_trans; [apply resolveWord_same|apply IH].
Qed.

(** X4.  Nothing that happens inside a round touches the standing of the
    game.  Word actions, however many and whatever their outcome, ticks of
    the timer, a pause, a resume and the end of the round all leave the
    settings, the team on turn, the round number, the scores and the used
    words exactly as they were: scores move only when results are handled
    by the application. *)
Theorem round_play_leaves_standing_alone :
  ∀ (actions : list (bool * Z)) (rnd : nat → nat) (now : Z) (timedOut : bool)
    (p : GamePlay.Play),
    let g := GamePlay.gameState p in
    Standing.same g (GamePlay.gameState (GamePlay.resolveWords actions p))
    ∧ Standing.same g (GamePlay.gameState (GamePlay.timerTick now p).1)
    ∧ Standing.same g (GamePlay.gameState (GamePlay.stopRound rnd now p))
    ∧ Standing.same g (GamePlay.gameState (GamePlay.resumeRound now p))
    ∧ Standing.same g (GamePlay.gameState (GamePlay.endRound timedOut now p).1)
    ∧ Standing.same g (GamePlay.gameState (GamePlay.clickPause rnd now p))
    ∧ Standing.same g (GamePlay.gameState (GamePlay.clickResume now p)).
Proof.
  intros actions rnd now timedOut p g. split_and!.
  - apply resolveWords_same.
  - unfold GamePlay.timerTick.
    destruct (roundStartTime _); [|apply same_refl].
    destruct (_ <=? 0); by repeat split.
  - by repeat split.
  - by repeat split.
  - by repeat split.
  - unfold GamePlay.clickPause.
    destruct (GamePlay.pauseEnabled p); [by repeat split|apply same_refl].
  - unfold GamePlay.clickResume.
    destruct (GamePlay.resumeEnabled p); [by repeat split|apply same_refl].
Qed.

(** ** The cheat flag *)

(** X5.  A guess that trips the cheat guard is still recorded, and it
    blocks the rest of the round.  In the state it leaves the result of
    the word is the last of the results, no word is shown, the word index
    has not moved and the flag is up; every later word action and every
    click on Pause is then a no-op.  The round can only end, and when it
    does it delivers the results with the flagged guess among them and
    takes the flag down. *)
Theorem cheat_flag_blocks_the_round :
  ∀ (g : bool) (now : Z) (p : GamePlay.Play),
    GamePlay.wordActionAccepted p = true →
    GamePlay.checkForCheating (GamePlay.roundStartTimeRef p) now
      (GamePlay.guessedCount
         (GamePlay.roundResults p
          ++ [ {| word := GamePlay.currentWord p; guessed := g |} ])) = true →
    let flagged := (GamePlay.resolveWord g now p).1 in
    let recorded :=
      GamePlay.roundResults p
      ++ [ {| word := GamePlay.currentWord p; guessed := g |} ] in
    (GamePlay.resolveWord g now p).2 = None
    ∧ GamePlay.cheatingDetected flagged = true
    ∧ GamePlay.currentWord flagged = ""%string
    ∧ GamePlay.roundResultsRef flagged = recorded
    ∧ GamePlay.gameState flagged = GamePlay.gameState p
    ∧ (∀ actions, GamePlay.resolveWords actions flagged = flagged)
    ∧ (∀ rnd t, GamePlay.clickPause rnd t flagged = flagged)
    ∧ (∀ timedOut t,
         (GamePlay.endRound timedOut t flagged).2 = recorded
         ∧ GamePlay.cheatingDetected (GamePlay.endRound timedOut t flagged).1
           = false).
Proof.
  intros g now p Hacc Hcheat flagged recorded.
  assert (Hflag : GamePlay.cheatingDetected flagged = true)
    by by apply resolveWord_flag.
  assert (Hstate :
    GamePlay.resolveWord g now p
    = ({| GamePlay.gameState := GamePlay.gameState p;
          GamePlay.currentWord := ""%string;
          GamePlay.roundWords := GamePlay.roundWords p;
          GamePlay.roundResults := recorded;
          GamePlay.currentTime := GamePlay.currentTime p;
          GamePlay.pausedRemainingTime := GamePlay.pausedRemainingTime p;
          GamePlay.roundPausedOnce := GamePlay.roundPausedOnce p;
          GamePlay.roundResultsRef := recorded;
          GamePlay.roundEndedByTimeout := GamePlay.roundEndedByTimeout p;
          GamePlay.cardExitX := 0;
          GamePlay.isCardExiting := false;
          GamePlay.nextWord := ""%string;
          GamePlay.cheatingDetected := true;
          GamePlay.roundStartTimeRef := GamePlay.roundStartTimeRef p;
          GamePlay.savedGameState := GamePlay.savedGameState p;
          GamePlay.intervalWordIndex := GamePlay.intervalWordIndex p |}, None)).
  { unfold GamePlay.resolveWord. rewrite Hacc.
    unfold GamePlay.handleWordAction. rewrite Hacc.
    unfold GamePlay.wordActionTimeout. cbn. by rewrite Hcheat. }
  unfold flagged in *. rewrite Hstate in *. cbn [fst snd] in *.
  split_and!; try done.
  - intros actions. by apply resolveWords_flagged.
  - intros rnd t. unfold GamePlay.clickPause, GamePlay.pauseEnabled.
    destruct (GamePlay.render _); try done.
    cbn. by rewrite andb_false_r.
Qed.

(** In the first round, begun at [1000], a word is guessed at [1500],
    before one second has passed: the guess is recorded and the round is
    blocked. *)
Lemma cheat_flag_blocks_the_round_witness :
  let flagged := (GamePlay.resolveWord true 1500 Sample.firstRound).1 in
  GamePlay.cheatingDetected flagged = true
  ∧ GamePlay.roundResultsRef flagged
    = [ {| word := "w1"%string; guessed := true |} ]
  ∧ GamePlay.resolveWords Sample.sevenActions flagged = flagged.
Proof.
  cbv zeta.
  pose proof (cheat_flag_blocks_the_round true 1500 Sample.firstRound
                eq_refl eq_refl) as (_ & Hflag & _ & Href & _ & Hblock & _).
  split_and!; [exact Hflag|exact Href|exact (Hblock Sample.sevenActions)].
Defined.

(** ** The end of the draw order *)

Lemma zip_with_snoc {A B C} (f : A → B → C) (l : list A) (k : list B) x y :
  l !! length k = Some x →
  zip_with f l (k ++ [y]) = zip_with f l k ++ [f x y].
Proof.
  revert l. induction k as [|b k IH]; intros [|a l] Hx; try done.
  - cbn in Hx. injection Hx as ->. by destruct l.
  - cbn in *. f_equal. by apply IH.
Qed.

Lemma resolved_snoc order from answers g w :
  order !! (from + length answers)%nat = Some w →
  Spec.resolved order from (answers ++ [g])
  = Spec.resolved order from answers ++ [ {| word := w; guessed := g |} ].
Proof.
  intros Hw. unfold Spec.resolved.
  apply zip_with_snoc. by rewrite lookup_drop.
Qed.

Lemma resolveWord_last g now p :
  Spec.wordOnShow p →
  GamePlay.cheatingDetected p = false →
  GamePlay.checkForCheating (GamePlay.roundStartTimeRef p) now
    (GamePlay.guessedCount
       (GamePlay.roundResults p
        ++ [ {| word := GamePlay.currentWord p; guessed := g |} ])) = false →
  (length (GamePlay.roundWords p) ≤ S (currentWordIndex (GamePlay.gameState p)))%nat →
  ∃ pEnd,
    GamePlay.resolveWord g now p
    = (pEnd, Some (GamePlay.roundResultsRef p
                   ++ [ {| word := GamePlay.currentWord p; guessed := g |} ]))
    ∧ isRoundActive (GamePlay.gameState pEnd) = false
    ∧ GamePlay.roundEndedByTimeout pEnd = false
    ∧ GamePlay.timerRunning pEnd = false.
Proof.
  intros Hshow Hc Hcheat Hlast.
  pose proof (wordOnShow_accepted p Hshow Hc) as Hacc.
  destruct Hshow as (Hcard & Hsync & Hword & Hne).
  unfold GamePlay.resolveWord. rewrite Hacc.
  unfold GamePlay.handleWordAction. rewrite Hacc.
  unfold GamePlay.wordActionTimeout. cbn.
  rewrite Hcheat. cbn.
  replace (currentWordIndex (GamePlay.gameState p) + 1)%nat
    with (S (currentWordIndex (GamePlay.gameState p))) by lia.
  destruct (Nat.leb_spec (length (GamePlay.roundWords p))
              (S (currentWordIndex (GamePlay.gameState p)))); [|lia].
  cbn. eexists. split; [by rewrite Hsync|]. by split_and!.
Qed.

(** X6.  A round that runs out of words ends by itself, not as timed out,
    and delivers every answer.  From a state with a word on show, let the
    words up to the last but one be answered, and then the last one, with
    no cheat flag on the way: the last answer ends the round, stops the
    timer, and hands over the earlier results followed by one result for
    every remaining word of the draw order, in order, the last word
    included. *)
Theorem last_word_ends_the_round :
  ∀ (actions : list (bool * Z)) (g : bool) (now : Z) (p : GamePlay.Play),
    Spec.wordOnShow p →
    (currentWordIndex (GamePlay.gameState p) + length actions + 1
     = length (GamePlay.roundWords p))%nat →
    let shown := GamePlay.resolveWords actions p in
    GamePlay.cheatingDetected shown = false →
    GamePlay.checkForCheating (GamePlay.roundStartTimeRef shown) now
      (GamePlay.guessedCount
         (GamePlay.roundResults shown
          ++ [ {| word := GamePlay.currentWord shown; guessed := g |} ])) = false →
    let from := currentWordIndex (GamePlay.gameState p) in
    ∃ pEnd delivered,
      GamePlay.resolveWord g now shown = (pEnd, Some delivered)
      ∧ delivered
        = GamePlay.roundResultsRef p
          ++ Spec.resolved (GamePlay.roundWords p) from (actions.*1 ++ [g])
      ∧ length delivered
        = (length (GamePlay.roundResultsRef p)
           + (length (GamePlay.roundWords p) - from))%nat
      ∧ isRoundActive (GamePlay.gameState pEnd) = false
      ∧ GamePlay.roundEndedByTimeout pEnd = false
      ∧ GamePlay.timerRunning pEnd = false.
Proof.
  intros actions g now p Hshow Hlen shown Hfinal Hcheat from.
  destruct (resolveWords_unflagged actions p Hshow ltac:(lia) Hfinal)
    as (Hshow' & Href & Hws & Hgs).
  fold shown in Hshow', Href, Hws, Hgs.
  destruct (resolveWord_last g now shown Hshow' Hfinal Hcheat)
    as (pEnd & Hres & Hact & Hto & Hrun).
  { rewrite Hws, Hgs. cbn. lia. }
  assert (Hword : GamePlay.roundWords p !! (from + length actions.*1)%nat
                  = Some (GamePlay.currentWord shown)).
  { destruct Hshow' as (_ & _ & Hword & _).
    rewrite Hws, Hgs in Hword. cbn in Hword. by rewrite length_fmap. }
  exists pEnd, (GamePlay.roundResultsRef shown
                ++ [ {| word := GamePlay.currentWord shown; guessed := g |} ]).
  split_and!; try done.
  - rewrite Href, <- app_assoc. f_equal. fold from.
    by rewrite (resolved_snoc _ _ _ _ _ Hword).
  - rewrite Href, !length_app, resolved_length by (rewrite length_fmap; lia).
    rewrite length_fmap. cbn. fold from. lia.
Qed.

(** The first round over the twelve words of the demo theme: eleven words
    answered, then the twelfth at [25000]; the round ends with twelve
    results, [w12] the last. *)
Lemma last_word_ends_the_round_witness :
  ∃ pEnd delivered,
    GamePlay.resolveWord true 25000
      (GamePlay.resolveWords Demo.elevenActions Sample.firstRound)
    = (pEnd, Some delivered)
    ∧ length delivered = 12%nat
    ∧ last delivered = Some {| word := "w12"%string; guessed := true |}
    ∧ GamePlay.roundEndedByTimeout pEnd = false.
Proof.
  destruct (last_word_ends_the_round Demo.elevenActions true 25000
              Sample.firstRound)
    as (pEnd & delivered & Hres & Hdel & Hlen & _ & Hto & _).
  - split_and!; try reflexivity.
    vm_compute. repeat (constructor; [discriminate|]). constructor.
  - reflexivity.
  - reflexivity.
  - reflexivity.
  - exists pEnd, delivered.
    split_and!; [exact Hres|exact Hlen|by rewrite Hdel|exact Hto].
Defined.

(** ** The word shown after a pause *)

(** X7.  After a pause the word shown is again the one the draw order has
    at the current index.  When the results recorded so far are as many as
    the index says and a word remains, [stopRound] puts on show the first
    word of the reshuffled remainder, which sits at the current index of
    the new order and is one of the words that were still to come (the
    word shown before among them); results and index do not move.  With
    no word remaining it shows the empty word, on which every word action
    is refused. *)
Theorem stopRound_shows_the_word_at_the_index :
  ∀ (rnd : nat → nat) (now : Z) (p : GamePlay.Play),
    length (GamePlay.roundResults p) = currentWordIndex (GamePlay.gameState p) →
    let index := currentWordIndex (GamePlay.gameState p) in
    let paused := GamePlay.stopRound rnd now p in
    currentWordIndex (GamePlay.gameState paused) = index
    ∧ GamePlay.roundResults paused = GamePlay.roundResults p
    ∧ GamePlay.roundResultsRef paused = GamePlay.roundResultsRef p
    ∧ ((index < length (GamePlay.roundWords p))%nat →
         GamePlay.roundWords paused !! index = Some (GamePlay.currentWord paused)
         ∧ GamePlay.currentWord paused ∈ drop index (GamePlay.roundWords p))
    ∧ ((length (GamePlay.roundWords p) ≤ index)%nat →
         GamePlay.currentWord paused = ""%string
         ∧ GamePlay.wordActionAccepted paused = false).
Proof.
  intros rnd now p Hlen index paused.
  split_and!; try reflexivity.
  - intros Hlt. cbn. rewrite Hlen. fold index.
    set (shuffled := shuffleArray rnd (drop index (GamePlay.roundWords p))).
    assert (Hsl : length shuffled = (length (GamePlay.roundWords p) - index)%nat)
      by (unfold shuffled; by rewrite shuffleArray_length, length_drop).
    destruct shuffled as [|w rest] eqn:E; [cbn in Hsl; lia|].
    cbn [head default]. split.
    + rewrite lookup_app_r by (rewrite length_take; lia).
      rewrite length_take.
      by replace (index - index `min` length (GamePlay.roundWords p))%nat
        with 0%nat by lia.
    + rewrite <- (shuffleArray_Permutation rnd). fold shuffled.
      rewrite E. by left.
  - intros Hge.
    assert (Hcw : GamePlay.currentWord paused = ""%string).
    { cbn. rewrite Hlen. fold index. by rewrite drop_ge. }
    split; [done|].
    unfold GamePlay.wordActionAccepted. by rewrite Hcw.
Qed.

(** The first round after seven answers, paused at [16000] with a supply
    of draws that turns the remaining order round: the word at index [7]
    of the new order is shown, and it is one of the five that remained. *)
Lemma stopRound_shows_the_word_at_the_index_witness :
  let paused :=
    GamePlay.stopRound (λ i, (i + 1)%nat) 16000
      (GamePlay.resolveWords Sample.sevenActions Sample.firstRound) in
  GamePlay.roundWords paused !! 7%nat = Some (GamePlay.currentWord paused)
  ∧ GamePlay.currentWord paused
    ∈ ["w8"; "w9"; "w10"; "w11"; "w12"]%string.
Proof.
  cbv zeta.
  pose proof (stopRound_shows_the_word_at_the_index (λ i, (i + 1)%nat) 16000
                (GamePlay.resolveWords Sample.sevenActions Sample.firstRound)
                eq_refl) as (_ & _ & _ & Hshown & _).
  destruct (Hshown ltac:(vm_compute; lia)) as [Hat Hin].
  split; [exact Hat|exact Hin].
Defined.

(** ** Starting a round *)

Lemma elem_of_getAvailableWords t used w :
  w ∈ getAvailableWords t used ↔ w ∈ Types.words t ∧ w ∉ used.
Proof. unfold getAvailableWords. rewrite list_elem_of_filter. tauto. Qed.

(** X8.  A round that starts deals every available word exactly once.
    With a word available [startRound] starts the round: the draw order is
    a permutation of the available words, so each of its words is a word
    of the theme that has not been used and none is missing; the first of
    them is on show at index [0]; the results are empty, the cheat flag
    and the pause mark are down, and the timer runs from [now].  The
    standing of the game is untouched. *)
Theorem startRound_deals_the_available_words :
  ∀ (rnd : nat → nat) (nowRef now : Z) (p : GamePlay.Play),
    GamePlay.availableWords p ≠ [] →
    ∃ started,
      GamePlay.startRound rnd nowRef now p = GamePlay.Started started
      ∧ GamePlay.roundWords started ≡ₚ GamePlay.availableWords p
      ∧ (∀ w, w ∈ GamePlay.roundWords started
              ↔ w ∈ Types.words (theme (settings (GamePlay.gameState p)))
                ∧ w ∉ wordsUsed (GamePlay.gameState p))
      ∧ GamePlay.roundWords started !! 0%nat = Some (GamePlay.currentWord started)
      ∧ currentWordIndex (GamePlay.gameState started) = 0%nat
      ∧ GamePlay.roundResults started = []
      ∧ GamePlay.roundResultsRef started = []
      ∧ GamePlay.cheatingDetected started = false
      ∧ GamePlay.roundPausedOnce started = false
      ∧ GamePlay.timerRunning started = true
      ∧ roundStartTime (GamePlay.gameState started) = Some now
      ∧ GamePlay.roundStartTimeRef started = Some nowRef
      ∧ Standing.same (GamePlay.gameState p) (GamePlay.gameState started).
Proof.
  intros rnd nowRef now p Hne.
  unfold GamePlay.startRound.
  rewrite bool_decide_eq_false_2
    by (intros Hlen; by apply nil_length_inv in Hlen).
  eexists. split; [reflexivity|]. cbn.
  pose proof (shuffleArray_Permutation rnd (GamePlay.availableWords p)) as Hperm.
  split_and!; try done.
  - intros w. rewrite Hperm. apply elem_of_getAvailableWords.
  - destruct (shuffleArray rnd (GamePlay.availableWords p)) as [|w rest] eqn:E;
      [|done].
    apply Permutation_nil_l in Hperm. by symmetry in Hperm.
Qed.

(** The first round of the demo session: the twelve words of the theme
    are dealt and [w1] is shown. *)
Lemma startRound_deals_the_available_words_witness :
  ∃ started,
    GamePlay.startRound Sample.keepOrder 1000 1000
      (GamePlay.mount Sample.gameT1T2 None) = GamePlay.Started started
    ∧ length (GamePlay.roundWords started) = 12%nat
    ∧ GamePlay.currentWord started = "w1"%string.
Proof.
  destruct (startRound_deals_the_available_words Sample.keepOrder 1000 1000
              (GamePlay.mount Sample.gameT1T2 None)
              ltac:(vm_compute; discriminate))
    as (started & Hstart & Hperm & _ & Hword & _).
  exists started. split_and!; [exact Hstart| |].
  - rewrite Hperm. vm_compute. reflexivity.
  - vm_compute in Hstart. injection Hstart as <-. reflexivity.
Defined.

(** ** Running out of words *)

Lemma maxScore_Some l m :
  maxScore l = Some m →
  Num m ∈ l ∧ ∀ x, x ∈ l → ∃ z, x = Num z ∧ z ≤ m.
Proof.
  revert m. induction l as [|x l IH]; intros m Hmax; [done|].
  destruct x as [z|]; [|done].
  destruct l as [|y l'].
  - cbn in Hmax. injection Hmax as <-. split; [left|].
    intros x Hx. apply list_elem_of_singleton in Hx as ->. exists z. split; [done|lia].
  - change (maxScore (Num z :: y :: l'))
      with (match maxScore (y :: l') with
            | Some m' => Some (Z.max z m')
            | None => None
            end) in Hmax.
    destruct (maxScore (y :: l')) as [m'|] eqn:E; [|done].
    injection Hmax as <-.
    destruct (IH m' eq_refl) as [Hin Hall]. split.
    + destruct (Z.max_spec z m') as [[_ ->]|[_ ->]]; [by right|left].
    + intros x [->|Hx]%elem_of_cons.
      * exists z. split; [done|lia].
      * destruct (Hall x Hx) as (z' & -> & Hle). exists z'. split; [done|lia].
Qed.

Lemma maxScore_None l : maxScore l = None → l = [] ∨ NaN ∈ l.
Proof.
  induction l as [|x l IH]; intros Hmax; [by left|right].
  destruct x as [z|]; [|left].
  destruct l as [|y l']; [done|].
  change (maxScore (Num z :: y :: l'))
    with (match maxScore (y :: l') with
          | Some m' => Some (Z.max z m')
          | None => None
          end) in Hmax.
  destruct (maxScore (y :: l')) as [m'|] eqn:E; [done|].
  destruct (IH eq_refl) as [|Hin]; [done|by right].
Qed.

Lemma elem_of_scores (scores : gmap string JsNum) x :
  x ∈ (map_to_list scores).*2 ↔ ∃ team, scores !! team = Some x.
Proof.
  rewrite list_elem_of_fmap. split.
  - intros ([k v] & -> & Hin). exists k. by apply elem_of_map_to_list.
  - intros (k & Hk). exists (k, x). split; [done|by apply elem_of_map_to_list].
Qed.

(** X9.  When the words run out, the winners are the teams with the
    highest score.  A team is among [highestScoreTeams] exactly when its
    score is a number that no score of any team exceeds; ties give
    several winners.  With at least one team and every score a number
    there is always such a team; as soon as one score is not a number
    there is none. *)
Theorem highestScoreTeams_are_the_leaders :
  ∀ scores : gmap string JsNum,
    (∀ team, team ∈ highestScoreTeams scores
             ↔ ∃ z, scores !! team = Some (Num z)
                    ∧ ∀ other x, scores !! other = Some x →
                                 ∃ z', x = Num z' ∧ z' ≤ z)
    ∧ (scores ≠ ∅ →
       (∀ team, scores !! team ≠ Some NaN) →
       highestScoreTeams scores ≠ [])
    ∧ ((∃ team, scores !! team = Some NaN) → highestScoreTeams scores = []).
Proof.
  intros scores. unfold highestScoreTeams.
  destruct (maxScore (map_to_list scores).*2) as [m|] eqn:Hmax.
  - destruct (maxScore_Some _ _ Hmax) as [Hin Hall].
    apply elem_of_scores in Hin as (leader & Hleader).
    split_and!.
    + intros team. rewrite list_elem_of_fmap. split.
      * intros ([k v] & -> & [Hv Hk]%list_elem_of_filter). cbn in *. subst v.
        apply elem_of_map_to_list in Hk. exists m. split; [done|].
        intros other x Hx. apply Hall, elem_of_scores. eauto.
      * intros (z & Hteam & Hmaxz).
        destruct (Hmaxz leader (Num m) Hleader) as (z' & [= <-] & Hle1).
        destruct (Hall (Num z)) as (z' & [= <-] & Hle2);
          [apply elem_of_scores; eauto|].
        assert (z = m) as -> by lia.
        exists (team, Num m). split; [done|].
        apply list_elem_of_filter. split; [done|by apply elem_of_map_to_list].
    + intros _ _ Hnil.
      assert (leader ∈ (filter (λ e : string * JsNum, e.2 = Num m)
                          (map_to_list scores)).*1) as Hl.
      { apply list_elem_of_fmap. exists (leader, Num m). split; [done|].
        apply list_elem_of_filter. split; [done|by apply elem_of_map_to_list]. }
      rewrite Hnil in Hl. by apply not_elem_of_nil in Hl.
    + intros (team & Hnan).
      destruct (Hall NaN) as (z & ? & _); [apply elem_of_scores; eauto|done].
  - apply maxScore_None in Hmax. split_and!.
    + intros team. split; [by intros ?%not_elem_of_nil|].
      intros (z & Hteam & Hmaxz). exfalso.
      destruct Hmax as [Hnil|Hnan].
      * apply fmap_nil_inv, map_to_list_empty_iff in Hnil. by rewrite Hnil in Hteam.
      * apply elem_of_scores in Hnan as (other & Hother).
        by destruct (Hmaxz other NaN Hother) as (? & ? & _).
    + intros Hne Hnum. exfalso. destruct Hmax as [Hnil|Hnan].
      * by apply fmap_nil_inv, map_to_list_empty_iff in Hnil.
      * apply elem_of_scores in Hnan as (other & Hother). by apply (Hnum other).
    + done.
Qed.

(** X10.  With no word left no round is started.  [startRound] then never
    starts one: it returns without a word when some team holds the
    highest score and calls [onGameEnd] only when none does.  If no team
    has reached the target either, the winners the component renders are
    the teams with the highest score, and whenever there are winners the
    game-over view is what it renders. *)
Theorem no_words_left_ends_the_game :
  ∀ (rnd : nat → nat) (nowRef now : Z) (p : GamePlay.Play),
    GamePlay.availableWords p = [] →
    let g := GamePlay.gameState p in
    (∀ started, GamePlay.startRound rnd nowRef now p ≠ GamePlay.Started started)
    ∧ (GamePlay.startRound rnd nowRef now p = GamePlay.NoWordsLeft
       ↔ highestScoreTeams (teamScores g) ≠ [])
    ∧ (GamePlay.startRound rnd nowRef now p = GamePlay.GameEnded
       ↔ highestScoreTeams (teamScores g) = [])
    ∧ (checkWinCondition g = [] →
       GamePlay.winners g = highestScoreTeams (teamScores g))
    ∧ (GamePlay.winners g ≠ [] →
       GamePlay.render p = GamePlay.GameOverView (GamePlay.winners g)).
Proof.
  intros rnd nowRef now p Hnone g.
  assert (Hstart : GamePlay.startRound rnd nowRef now p
                   = if (0 <? length (highestScoreTeams (teamScores g)))%nat
                     then GamePlay.NoWordsLeft else GamePlay.GameEnded).
  { unfold GamePlay.startRound. by rewrite Hnone. }
  rewrite Hstart.
  split_and!.
  - intros started. by destruct (_ <? _)%nat.
  - by destruct (highestScoreTeams (teamScores g)).
  - by destruct (highestScoreTeams (teamScores g)).
  - intros Hnil. unfold GamePlay.winners. rewrite Hnil. cbn.
    unfold GamePlay.availableWords in Hnone. fold g in Hnone. by rewrite Hnone.
  - intros Hw. unfold GamePlay.render. fold g.
    by destruct (GamePlay.winners g).
Qed.

(** Every word of the demo theme used, [T1] at 4 and [T2] at 2, target
    10: no round starts and the game is over with [T1] the winner. *)
Lemma no_words_left_ends_the_game_witness :
  GamePlay.startRound Sample.keepOrder 1000 1000 (GamePlay.mount Demo.exhausted None)
  = GamePlay.NoWordsLeft
  ∧ GamePlay.render (GamePlay.mount Demo.exhausted None)
    = GamePlay.GameOverView ["T1"%string].
Proof.
  pose proof (no_words_left_ends_the_game Sample.keepOrder 1000 1000
                (GamePlay.mount Demo.exhausted None)
                ltac:(vm_compute; reflexivity))
    as (_ & Hstart & _ & _ & Hrender).
  split.
  - apply Hstart. vm_compute. discriminate.
  - exact (Hrender ltac:(vm_compute; discriminate)).
Defined.

(** ** Scores across a confirmation *)

Lemma roundDelta_bounds penalty results :
  - Z.of_nat (length results) ≤ Spec.roundDelta penalty results
                              ≤ Z.of_nat (length results)
  ∧ (penalty = false → 0 ≤ Spec.roundDelta penalty results).
Proof.
  induction results as [|r results IH]; [cbn; lia|].
  rewrite roundDelta_cons. unfold Spec.resultDelta. cbn [length].
  destruct (guessed r), penalty; lia.
Qed.

(** X11.  One round moves a score by at most one point per word.  The
    change [handleRoundResultsConfirm] computes lies between minus and
    plus the number of results; with the skip penalty off it is never
    negative, so a confirmation cannot lower a score; and when every word
    was guessed it is the number of results. *)
Theorem scoreChange_is_bounded_by_the_results :
  ∀ (penalty : bool) (results : list RoundResult),
    - Z.of_nat (length results) ≤ App.scoreChange penalty results
                                ≤ Z.of_nat (length results)
    ∧ 0 ≤ App.scoreChange false results
    ∧ App.scoreChange penalty (Sample.allGuessed (word <$> results))
      = Z.of_nat (length results)
    ∧ App.scoreChange penalty []  = 0.
Proof.
  intros penalty results. rewrite !scoreChange_roundDelta.
  pose proof (roundDelta_bounds penalty results) as [Hb _].
  pose proof (roundDelta_bounds false results) as [_ Hpos].
  split; [exact Hb|]. split; [by apply Hpos|]. split; [|reflexivity].
  clear Hb Hpos. induction results as [|r results IH]; [done|].
  change (Sample.allGuessed (word <$> r :: results))
    with ({| word := word r; guessed := true |}
          :: Sample.allGuessed (word <$> results)).
  rewrite roundDelta_cons, IH. cbn [length]. unfold Spec.resultDelta. cbn. lia.
Qed.

(** X12.  The results screen never hands a win to the team that played.
    When [handleRoundEnd] has found the results short of the target and
    shown the results screen, confirming those same results gives the
    team exactly the score that was previewed, which is below the target:
    the team is not among the winners afterwards, and if no team had
    reached the target before the round none has after it. *)
Theorem confirming_the_previewed_results_gives_no_winner :
  ∀ (checkWin : GameState → JsVal) (now : Z) (results : list RoundResult)
    (a : App.AppModel) (g : GameState),
    App.gameState a = Some g →
    App.screen (App.handleRoundEnd now results a) = App.RoundResultsScreen →
    let team := App.currentTeamKey g in
    let shown := App.handleRoundEnd now results a in
    ∃ g', App.gameState (App.handleRoundResultsConfirm checkWin results shown)
          = Some g'
          ∧ teamScores g' !! team
            = Some (App.potentialScore (skipPenalty (settings g))
                      (get (teamScores g) team) results)
          ∧ (team ∉ checkWinCondition g')
          ∧ (checkWinCondition g = [] → checkWinCondition g' = []).
Proof.
  intros checkWin now results a g Hg Hscreen team shown.
  assert (Hlow : ge (App.potentialScore (skipPenalty (settings g))
                       (get (teamScores g) team) results)
                    (pointsRequired (settings g)) = false).
  { unfold App.handleRoundEnd in Hscreen. rewrite Hg in Hscreen.
    fold team in Hscreen. by destruct (ge _ _). }
  assert (Hshown : shown = _) by (by apply handleRoundEnd_no_win).
  match type of Hshown with
  | _ = App.Build_AppModel _ (Some ?x) _ => set (g1 := x) in Hshown
  end.
  destruct (confirm_gameState checkWin results shown g1)
    as (g' & Hg' & Hscores & _ & Hset); [by rewrite Hshown|].
  assert (Hteam : teamScores g' !! team
                  = Some (App.potentialScore (skipPenalty (settings g))
                            (get (teamScores g) team) results)).
  { rewrite Hscores. cbn. fold team. rewrite lookup_insert_eq.
    by rewrite scoreChange_roundDelta, potentialScore_roundDelta. }
  assert (Hnot : ∀ z, teamScores g' !! team = Some (Num z) →
                      z < pointsRequired (settings g)).
  { intros z Hz. rewrite Hteam in Hz. injection Hz as Hz.
    rewrite Hz in Hlow. cbn in Hlow. by apply Z.leb_gt in Hlow. }
  exists g'. split_and!; try done.
  - intros (z & Hz & Hle)%elem_of_checkWinCondition.
    rewrite Hset in Hle. cbn in Hle. specialize (Hnot z Hz). lia.
  - intros Hnil. apply checkWinCondition_nil. intros other z Hother.
    rewrite Hset. cbn.
    destruct (decide (other = team)) as [->|Hne]; [by apply Hnot|].
    rewrite Hscores in Hother. cbn in Hother. fold team in Hother.
    rewrite lookup_insert_ne in Hother by done.
    by apply (proj1 (checkWinCondition_nil g) Hnil other).
Qed.

(** Team [T1] of the fresh demo session ends a round with one word guessed
    and one skipped; the results screen comes up, and after the
    confirmation [T1] has one point and nobody has won. *)
Lemma confirming_the_previewed_results_gives_no_winner_witness :
  ∃ g', App.gameState
          (App.handleRoundResultsConfirm App.firstWinner
             Sample.oneGuessedOneSkipped
             (App.handleRoundEnd 5000 Sample.oneGuessedOneSkipped Demo.playing))
        = Some g'
        ∧ teamScores g' !! "T1"%string = Some (Num 1)
        ∧ checkWinCondition g' = [].
Proof.
  destruct (confirming_the_previewed_results_gives_no_winner App.firstWinner
              5000 Sample.oneGuessedOneSkipped Demo.playing Sample.gameT1T2
              eq_refl eq_refl)
    as (g' & Hg' & Hteam & _ & Hnone).
  exists g'. split_and!; [exact Hg'|exact Hteam|exact (Hnone eq_refl)].
Defined.

(** ** A full cycle of turns *)

Lemma turns_index_round (rounds : list (list RoundResult)) :
  ∀ (g : GameState) (i : Z),
  let n := Z.of_nat (length (selectedTeams (settings g))) in
  let k := Z.of_nat (length rounds) in
  currentTeamIndex g = Num i →
  0 ≤ i < n →
  settings (AppFlow.turns rounds g) = settings g
  ∧ currentTeamIndex (AppFlow.turns rounds g) = Num ((i + k) mod n)
  ∧ currentRound (AppFlow.turns rounds g) = currentRound g + (i + k) / n.
Proof.
  induction rounds as [|results rounds IH]; intros g i n k Hi Hrange.
  - cbn. unfold k. cbn. rewrite Z.add_0_r, Z.mod_small, Z.div_small by done.
    split_and!; [done|done|lia].
  - set (g1 := App.nextTurn (App.scoredState results g)).
    change (AppFlow.turns (results :: rounds) g) with (AppFlow.turns rounds g1).
    assert (Hnext : currentTeamIndex g1 = Num ((i + 1) mod n)).
    { cbn. rewrite Hi. by apply rem_next_index. }
    assert (Hround : currentRound g1 = currentRound g + (i + 1) / n).
    { cbn. rewrite Hi, rem_next_index by done. fold n. cbn [is_zero].
      destruct (decide (i + 1 = n)) as [Heq|Hne].
      - rewrite Heq, Z.mod_same, Z.div_same by lia. done.
      - rewrite Z.mod_small, Z.div_small by lia.
        destruct (Z.eqb_spec (i + 1) 0); lia. }
    destruct (IH g1 ((i + 1) mod n) Hnext) as (Hset & Hidx & Hrd).
    { cbn. fold n. apply Z.mod_pos_bound. lia. }
    change (settings g1) with (settings g) in Hset, Hidx, Hrd.
    fold n in Hidx, Hrd.
    assert (Hk : k = Z.of_nat (length rounds) + 1) by (unfold k; cbn [length]; lia).
    split_and!.
    + done.
    + rewrite Hidx, Hk. f_equal.
      rewrite Zplus_mod_idemp_l. f_equal. lia.
    + rewrite Hrd, Hround, Hk.
      replace (i + (Z.of_nat (length rounds) + 1))
        with ((i + 1) + Z.of_nat (length rounds)) by lia.
      rewrite (Z.div_mod (i + 1) n) at 3 by lia.
      replace (n * ((i + 1) / n) + (i + 1) mod n + Z.of_nat (length rounds))
        with (((i + 1) mod n + Z.of_nat (length rounds)) + ((i + 1) / n) * n)
        by lia.
      rewrite Z.div_add by lia. lia.
Qed.

(** X13.  The round number counts full cycles of the teams.  Starting
    from a team index within range, after [k] rounds confirmed without a
    winner, whatever their results, the index is [(i + k) mod teamCount]
    and the round number has grown by [(i + k) / teamCount]: the teams
    play in order, and the round number goes up by one each time, and
    only when, the turn comes back to the first team.  In particular
    after as many rounds as there are teams the same team is on turn
    again, exactly one round later. *)
Theorem turns_cycle_through_the_teams :
  ∀ (rounds : list (list RoundResult)) (g : GameState),
    Spec.teamIndexInRange g →
    let n := Z.of_nat (length (selectedTeams (settings g))) in
    let k := Z.of_nat (length rounds) in
    (∀ checkWin finalResults a,
       App.gameState a = Some g →
       truthy (checkWin (App.scoredState finalResults g)) = false →
       App.gameState (App.handleRoundResultsConfirm checkWin finalResults a)
       = Some (AppFlow.turns [finalResults] g))
    ∧ (∀ i, currentTeamIndex g = Num i →
          currentTeamIndex (AppFlow.turns rounds g) = Num ((i + k) mod n)
          ∧ currentRound (AppFlow.turns rounds g)
            = currentRound g + (i + k) / n)
    ∧ Spec.teamIndexInRange (AppFlow.turns rounds g)
    ∧ (k = n →
       currentTeamIndex (AppFlow.turns rounds g) = currentTeamIndex g
       ∧ currentRound (AppFlow.turns rounds g) = currentRound g + 1).
Proof.
  intros rounds g (i & Hi & Hrange) n k.
  destruct (turns_index_round rounds g i Hi Hrange) as (Hset & Hidx & Hrd).
  fold n k in Hidx, Hrd, Hrange.
  split_and!.
  - intros checkWin finalResults a Ha Hw.
    by rewrite (confirm_no_winner checkWin finalResults a g).
  - intros i' Hi'. rewrite Hi in Hi'. injection Hi' as <-. done.
  - exists ((i + k) mod n). split; [done|].
    rewrite Hset. fold n. apply Z.mod_pos_bound. lia.
  - intros Hkn. rewrite Hidx, Hrd, Hi, Hkn. split.
    + f_equal. rewrite <- (Z.mul_1_l n) at 1.
      rewrite Z.mod_add by lia. apply Z.mod_small. lia.
    + f_equal. rewrite <- (Z.mul_1_l n) at 1.
      rewrite Z.div_add by lia. rewrite Z.div_small by lia. done.
Qed.

(** Two teams, [T1] on turn in round 1: after two rounds confirmed [T1]
    is on turn again, in round 2. *)
Lemma turns_cycle_through_the_teams_witness :
  let twoRounds := [Sample.oneGuessedOneSkipped; Sample.oneGuessedOneSkipped] in
  currentTeamIndex (AppFlow.turns twoRounds Sample.gameT1T2) = Num 0
  ∧ currentRound (AppFlow.turns twoRounds Sample.gameT1T2) = 2
  ∧ Spec.teamIndexInRange (AppFlow.turns twoRounds Sample.gameT1T2).
Proof.
  cbv zeta.
  assert (Hin : Spec.teamIndexInRange Sample.gameT1T2)
    by (exists 0; split; [reflexivity|cbn; lia]).
  pose proof (turns_cycle_through_the_teams
                [Sample.oneGuessedOneSkipped; Sample.oneGuessedOneSkipped]
                Sample.gameT1T2 Hin)
    as (_ & _ & Hrange & Hcycle).
  destruct (Hcycle eq_refl) as [Hidx Hround].
  split_and!; [exact Hidx|exact Hround|exact Hrange].
Defined.

(** ** Used words and the saved game *)

(** X14.  Used words only accumulate.  Both round handlers keep every
    word already used, in place, and add the words of the results they
    apply after them: the win branch of [handleRoundEnd] and every
    confirmation append the words of the round, the results-screen branch
    adds nothing yet.  After a confirmation no word of the confirmed
    results is available to a later round, and no word has become
    available again. *)
Theorem used_words_only_accumulate :
  ∀ (checkWin : GameState → JsVal) (now : Z) (results : list RoundResult)
    (a : App.AppModel) (g : GameState),
    App.gameState a = Some g →
    (∃ g1, App.gameState (App.handleRoundEnd now results a) = Some g1
           ∧ (wordsUsed g1 = wordsUsed g
              ∨ wordsUsed g1 = wordsUsed g ++ (word <$> results))
           ∧ wordsUsed g `prefix_of` wordsUsed g1)
    ∧ (∃ g2, App.gameState (App.handleRoundResultsConfirm checkWin results a)
             = Some g2
             ∧ wordsUsed g2 = wordsUsed g ++ (word <$> results)
             ∧ theme (settings g2) = theme (settings g)
             ∧ (∀ r, r ∈ results →
                     word r ∉ getAvailableWords (theme (settings g2)) (wordsUsed g2))
             ∧ (∀ w, w ∈ getAvailableWords (theme (settings g2)) (wordsUsed g2) →
                     w ∈ getAvailableWords (theme (settings g)) (wordsUsed g))).
Proof.
  intros checkWin now results a g Hg. split.
  - unfold App.handleRoundEnd. rewrite Hg.
    destruct (ge _ _); eexists; (split; [reflexivity|]); cbn.
    + split; [by right|by apply prefix_app_r].
    + split; [by left|done].
  - destruct (confirm_gameState checkWin results a g Hg)
      as (g2 & Hg2 & _ & Hused & Hset).
    exists g2. cbn in Hused. rewrite Hset, Hused.
    split_and!; try done.
    + intros r Hr [_ Hnot]%elem_of_getAvailableWords. apply Hnot.
      apply elem_of_app. right. by apply list_elem_of_fmap_2.
    + intros w [Hw Hnot]%elem_of_getAvailableWords.
      apply elem_of_getAvailableWords. split; [done|].
      intros Hin. apply Hnot. apply elem_of_app. by left.
Qed.

(** [T1] has [w1] guessed and [w2] skipped confirmed in the fresh demo
    session: both words are used and ten of the twelve remain. *)
Lemma used_words_only_accumulate_witness :
  ∃ g2, App.gameState
          (App.handleRoundResultsConfirm App.firstWinner
             Sample.oneGuessedOneSkipped Demo.confirming) = Some g2
        ∧ wordsUsed g2 = ["w1"; "w2"]%string
        ∧ length (getAvailableWords (theme (settings g2)) (wordsUsed g2))
          = 10%nat.
Proof.
  destruct (used_words_only_accumulate App.firstWinner 0
              Sample.oneGuessedOneSkipped Demo.confirming Sample.gameT1T2
              eq_refl)
    as (_ & g2 & Hg2 & Hused & _).
  exists g2. split_and!; [exact Hg2|exact Hused|].
  vm_compute in Hg2. injection Hg2 as <-. vm_compute. reflexivity.
Defined.

(** X15.  The game that has just been won ends up saved again.  Both
    winner branches call [storage.clearGameState()] and then set the
    final state; the effect that saves [gameState] after each change runs
    on that state, so once it has run the slot holds the finished game,
    not nothing.  The effect never empties the slot, and running it
    again changes nothing. *)
Theorem finished_game_is_saved_again :
  ∀ (checkWin : GameState → JsVal) (now : Z) (results : list RoundResult)
    (a : App.AppModel) (g : GameState),
    App.gameState a = Some g →
    let ended := App.handleRoundEnd now results a in
    let confirmed := App.handleRoundResultsConfirm checkWin results a in
    (App.screen ended = App.GamePlayScreen →
       App.savedGameState ended = None
       ∧ App.savedGameState (AppFlow.saveEffect ended) = App.gameState ended
       ∧ is_Some (App.savedGameState (AppFlow.saveEffect ended)))
    ∧ (truthy (checkWin (App.scoredState results g)) = true →
         App.savedGameState confirmed = None
         ∧ App.savedGameState (AppFlow.saveEffect confirmed)
           = Some (App.scoredState results g))
    ∧ (∀ b, is_Some (App.savedGameState b) →
            is_Some (App.savedGameState (AppFlow.saveEffect b)))
    ∧ (∀ b, AppFlow.saveEffect (AppFlow.saveEffect b) = AppFlow.saveEffect b).
Proof.
  intros checkWin now results a g Hg ended confirmed. split_and!.
  - unfold ended, App.handleRoundEnd. rewrite Hg.
    destruct (ge _ _); [|done]. intros _. cbn. by split_and!.
  - intros Hw. unfold confirmed.
    by rewrite (confirm_winner checkWin results a g).
  - intros b Hb. unfold AppFlow.saveEffect.
    by destruct (App.gameState b).
  - intros b. unfold AppFlow.saveEffect.
    destruct (App.gameState b) eqn:E; cbn; by rewrite ?E.
Qed.

(** [T1] guesses ten words in the fresh demo session: the handler clears
    the slot, and after the effect the slot holds the game [T1] has won. *)
Lemma finished_game_is_saved_again_witness :
  let results := Sample.allGuessed (take 10 (Types.words Sample.demoTheme)) in
  let ended := App.handleRoundEnd 5000 results Demo.playing in
  App.savedGameState ended = None
  ∧ (GamePlay.winners <$> App.savedGameState (AppFlow.saveEffect ended))
    = Some ["T1"%string].
Proof.
  cbv zeta.
  pose proof (finished_game_is_saved_again App.firstWinner 5000
                (Sample.allGuessed (take 10 (Types.words Sample.demoTheme)))
                Demo.playing Sample.gameT1T2 eq_refl) as (Hended & _).
  destruct (Hended eq_refl) as (Hcleared & Hsaved & _).
  split; [exact Hcleared|].
  rewrite Hsaved. vm_compute. reflexivity.
Defined.

(** ** Resuming a stored game *)

Lemma fromEntries_lookup_is_Some (pairs : list (string * JsNum)) k :
  is_Some (GameHistory.fromEntries pairs !! k) ↔ k ∈ pairs.*1.
Proof.
  unfold GameHistory.fromEntries.
  rewrite <- elem_of_dom, dom_list_to_map_L, elem_of_list_to_set, fmap_reverse.
  by rewrite elem_of_reverse.
Qed.

Lemma fromEntries_lookup_NoDup (pairs : list (string * JsNum)) k v :
  NoDup pairs.*1 → (k, v) ∈ pairs → GameHistory.fromEntries pairs !! k = Some v.
Proof.
  intros Hnd Hin. unfold GameHistory.fromEntries.
  apply elem_of_list_to_map_1.
  - by rewrite fmap_reverse, reverse_Permutation.
  - by apply elem_of_reverse.
Qed.

Lemma guessedCount_cons r results :
  GamePlay.guessedCount (r :: results)
  = (if guessed r then 1 else 0) + GamePlay.guessedCount results.
Proof.
  unfold GamePlay.guessedCount. rewrite filter_cons.
  destruct r as [w [|]]; cbn [guessed]; case_decide; try done.
  cbn [length]. lia.
Qed.

Lemma guessedCount_app results1 results2 :
  GamePlay.guessedCount (results1 ++ results2)
  = GamePlay.guessedCount results1 + GamePlay.guessedCount results2.
Proof.
  unfold GamePlay.guessedCount. rewrite filter_app, length_app. lia.
Qed.

Lemma guessedCount_marked (b : bool) (ws : list string) :
  GamePlay.guessedCount ((λ w, {| word := w; guessed := b |}) <$> ws)
  = if b then Z.of_nat (length ws) else 0.
Proof.
  induction ws as [|w ws IH]; [by destruct b|].
  cbn [fmap list_fmap]. rewrite guessedCount_cons.
  change (list_fmap _ _ ?f ws) with (f <$> ws). rewrite IH.
  destruct b; cbn [guessed length]; lia.
Qed.

(** X16.  A stored game is resumed only when it names its teams, and then
    as an idle game whose books agree.  [handleResumeGame] reports
    "Cannot resume game: missing teams data" whenever the game has no
    [info], no team list or an empty one, whatever the theme request
    gives, and otherwise only if the theme request failed with that very
    message; with teams it passes on the error of a failed theme request,
    or resumes.  The resumed state is between rounds (not active, not
    paused, no start instant); its used words are the guessed words
    followed by the skipped ones; its results name exactly those words in
    that order, marking the guessed ones; and its word index is their
    number. *)
Theorem handleResumeGame_resumes_an_idle_game :
  ∀ (game : GameHistory.GameDetailsResponse) (fetched : string + Theme),
    (GameHistory.handleResumeGame game fetched
     = GameHistory.ResumeError "Cannot resume game: missing teams data"
     ↔ GameHistory.teamsOf game = []
       ∨ fetched = inl "Cannot resume game: missing teams data"%string)
    ∧ (GameHistory.teamsOf game = []
       ↔ GameHistory.info game = None
         ∨ (∃ i, GameHistory.info game = Some i
                 ∧ (GameHistory.infoTeams i = None
                    ∨ GameHistory.infoTeams i = Some [])))
    ∧ (∀ message, GameHistory.teamsOf game ≠ [] → fetched = inl message →
         GameHistory.handleResumeGame game fetched
         = GameHistory.ResumeError message)
    ∧ (∀ fullTheme, GameHistory.teamsOf game ≠ [] → fetched = inr fullTheme →
         ∃ g, GameHistory.handleResumeGame game fetched
              = GameHistory.Resumed g (GameHistory.gameId game)
              ∧ theme (settings g) = fullTheme
              ∧ isRoundActive g = false
              ∧ isPaused g = false
              ∧ roundStartTime g = None
              ∧ wordsUsed g
                = GameHistory.words_guessed game ++ GameHistory.words_skipped game
              ∧ word <$> roundResults g = wordsUsed g
              ∧ currentWordIndex g = length (wordsUsed g)
              ∧ GamePlay.guessedCount (roundResults g)
                = Z.of_nat (length (GameHistory.words_guessed game))
              ∧ GamePlay.render (GamePlay.mount g None) ≠ GamePlay.RoundView).
Proof.
  intros game fetched. unfold GameHistory.handleResumeGame.
  split_and!.
  - case_bool_decide as Hteams; [by split; [left|]|].
    destruct fetched as [message|fullTheme].
    + split; [intros [= ->]; by right|].
      intros [?|[= ->]]; done.
    + split; [done|]. by intros [?|?].
  - unfold GameHistory.teamsOf. destruct (GameHistory.info game) as [i|]; [|by split; [left|]].
    destruct (GameHistory.infoTeams i) as [l|] eqn:E; cbn.
    + split.
      * intros ->. right. exists i. split; [done|by right].
      * intros [?|(i' & [= <-] & [?|?])]; congruence.
    + split; [|done]. intros _. right. exists i. split; [done|by left].
  - intros message Hteams ->. by rewrite bool_decide_eq_false_2.
  - intros fullTheme Hteams ->. rewrite bool_decide_eq_false_2 by done.
    eexists. split; [reflexivity|]. cbn.
    split_and!; try done.
    + rewrite fmap_app, <- !list_fmap_compose.
      f_equal; by rewrite <- (list_fmap_id (_ game)) at 2.
    + by rewrite length_app.
    + rewrite guessedCount_app, !guessedCount_marked. lia.
    + unfold GamePlay.render. cbn [GamePlay.mount GamePlay.gameState].
      by repeat case_match.
Qed.

(** X17.  The resumed scores are the stored ones, team by team.  The
    teams with a score in the resumed state are exactly the stored team
    names, in the stored order in [selectedTeams]; when no name occurs
    twice each team has its stored score, and so is a winner exactly when
    that score has reached the stored target.  A stored turn within the
    teams is kept; with no turn on record the first team is on turn,
    which exists.  A stored round number other than [0] is kept; with
    none on record, or [0], the round number is set to the stored round
    length in seconds. *)
Theorem resumedState_keeps_the_scores :
  ∀ (game : GameHistory.GameDetailsResponse) (fullTheme : Theme),
    let g := GameHistory.resumedState game fullTheme in
    let teams := GameHistory.teamsOf game in
    selectedTeams (settings g) = GameHistory.teamName <$> teams
    ∧ pointsRequired (settings g) = GameHistory.points game
    ∧ (∀ k, is_Some (teamScores g !! k) ↔ k ∈ selectedTeams (settings g))
    ∧ (NoDup (GameHistory.teamName <$> teams) →
       ∀ t, t ∈ teams →
            teamScores g !! GameHistory.teamName t
            = Some (Num (GameHistory.score t))
            ∧ (GameHistory.teamName t ∈ checkWinCondition g
               ↔ GameHistory.points game ≤ GameHistory.score t))
    ∧ (teams ≠ [] →
       (∀ i idx, GameHistory.info game = Some i →
                 GameHistory.current_team_index i = Some idx →
                 0 ≤ idx < Z.of_nat (length teams) →
                 currentTeamIndex g = Num idx ∧ Spec.teamIndexInRange g)
       ∧ (∀ i, GameHistory.info game = Some i →
               GameHistory.current_team_index i = None →
               currentTeamIndex g = Num 0 ∧ Spec.teamIndexInRange g))
    ∧ (∀ i r, GameHistory.info game = Some i →
              GameHistory.current_round i = Some r → r ≠ 0 →
              currentRound g = r)
    ∧ (∀ i, GameHistory.info game = Some i →
            GameHistory.current_round i = None
            ∨ GameHistory.current_round i = Some 0 →
            currentRound g = GameHistory.round game).
Proof.
  intros game fullTheme g teams.
  assert (Hkeys : ((λ t, (GameHistory.teamName t, Num (GameHistory.score t)))
                     <$> teams).*1 = GameHistory.teamName <$> teams).
  { rewrite <- list_fmap_compose. done. }
  split_and!; try done.
  - intros k. cbn. fold teams. by rewrite fromEntries_lookup_is_Some, Hkeys.
  - intros Hnd t Ht.
    assert (Hscore : teamScores g !! GameHistory.teamName t
                     = Some (Num (GameHistory.score t))).
    { cbn. fold teams. apply fromEntries_lookup_NoDup; [by rewrite Hkeys|].
      by apply (list_elem_of_fmap_2
                  (λ t, (GameHistory.teamName t, Num (GameHistory.score t)))). }
    split; [done|]. rewrite elem_of_checkWinCondition, Hscore. cbn. split.
    + by intros (z & [= <-] & Hle).
    + intros Hle. eauto.
  - intros Hne. split.
    + intros i idx Hi Hidx Hrange.
      assert (Hcur : currentTeamIndex g = Num idx)
        by (cbn; by rewrite Hi, Hidx).
      split; [done|]. exists idx. split; [done|].
      cbn. fold teams. by rewrite length_fmap.
    + intros i Hi Hidx.
      assert (Hcur : currentTeamIndex g = Num 0)
        by (cbn; by rewrite Hi, Hidx).
      split; [done|]. exists 0. split; [done|].
      cbn. fold teams. rewrite length_fmap.
      destruct teams; [done|]. cbn. lia.
  - intros i r Hi Hr Hnz. cbn. rewrite Hi, Hr. cbn.
    by destruct (Z.eqb_spec r 0).
  - intros i Hi [Hr|Hr]; cbn; by rewrite Hi, Hr.
Qed.

(** The stored game of [T1] at 4 and [T2] at 2 with no turn on record:
    it resumes with those scores and [T1] on turn. *)
Lemma resumedState_keeps_the_scores_witness :
  let g := GameHistory.resumedState Demo.storedGame Sample.demoTheme in
  teamScores g !! "T1"%string = Some (Num 4)
  ∧ getCurrentTeam g = Some "T1"%string.
Proof.
  cbv zeta.
  pose proof (resumedState_keeps_the_scores Demo.storedGame Sample.demoTheme)
    as (_ & _ & _ & Hscores & _).
  assert (Hnd : NoDup (GameHistory.teamName
                         <$> GameHistory.teamsOf Demo.storedGame)).
  { change (NoDup ["T1"; "T2"]%string).
    apply NoDup_cons_2; [|apply NoDup_singleton].
    rewrite list_elem_of_singleton. discriminate. }
  destruct (Hscores Hnd
              {| GameHistory.teamName := "T1"%string; GameHistory.score := 4 |}
              ltac:(left)) as [Hscore _].
  split; [exact Hscore|reflexivity].
Defined.

(** ** The theme store *)

Lemma saveTheme_themes theme st :
  ThemeStorage.getThemes (ThemeStorage.saveTheme theme st)
  = match list_find (ThemeStorage.sameTheme theme)
            (ThemeStorage.getThemes st) with
    | Some (i, _) => <[i := theme]> (ThemeStorage.getThemes st)
    | None => ThemeStorage.getThemes st ++ [theme]
    end.
Proof.
  unfold ThemeStorage.saveTheme.
  by destruct (list_find _ _) as [[i t]|].
Qed.

Lemma list_find_insert_same theme themes i t :
  list_find (ThemeStorage.sameTheme theme) themes = Some (i, t) →
  list_find (ThemeStorage.sameTheme theme) (<[i := theme]> themes)
  = Some (i, theme).
Proof.
  intros (Hi & _ & Hfirst)%list_find_Some. apply list_find_Some.
  split_and!.
  - apply list_lookup_insert_eq. by apply lookup_lt_Some in Hi.
  - done.
  - intros j y Hj Hlt. rewrite list_lookup_insert_ne in Hj by lia.
    by apply (Hfirst j).
Qed.

Lemma list_find_snoc_same theme themes :
  list_find (ThemeStorage.sameTheme theme) themes = None →
  list_find (ThemeStorage.sameTheme theme) (themes ++ [theme])
  = Some (length themes, theme).
Proof.
  intros Hnone%list_find_None. apply list_find_Some. split_and!.
  - by rewrite lookup_app_r, Nat.sub_diag.
  - done.
  - intros j y Hj Hlt. rewrite lookup_app_l in Hj by done.
    by apply (proj1 (Forall_lookup _ _) Hnone j).
Qed.

(** X18.  [saveTheme] replaces or appends by what [.name] and [.lang]
    read.  Two themes of the local format match when name and [lang] are
    equal.  A [Theme] of the types file has [language] and no [lang], so
    its [.lang] reads [undefined]: two such themes match by name alone,
    whatever their languages, and never match one of the local format.
    The saved theme is in the store afterwards.  If a stored theme
    matches, the first such entry is replaced in place and the number of
    themes is unchanged; if none does, the theme is appended.  Themes
    that do not match are kept as they were, in order.  Saving the same
    theme twice is the same as saving it once.  A store whose text cannot
    be parsed reads as empty and is overwritten by the saved theme alone.
    In particular saving a [Theme] over a store that holds one [Theme] of
    the same name in another language leaves the saved one alone. *)
Theorem saveTheme_upserts_by_name_and_lang :
  ∀ (theme : ThemeStorage.ThemeObject) (st : ThemeStorage.ThemesItem),
    let before := ThemeStorage.getThemes st in
    let after := ThemeStorage.getThemes (ThemeStorage.saveTheme theme st) in
    (∀ t, ThemeStorage.sameTheme theme t
          ↔ match theme, t with
            | ThemeStorage.Local l, ThemeStorage.Local m =>
                Storage.name m = Storage.name l
                ∧ Storage.lang m = Storage.lang l
            | ThemeStorage.Typed a, ThemeStorage.Typed b =>
                Api.apiName b = Api.apiName a
            | _, _ => False
            end)
    ∧ theme ∈ after
    ∧ ((∃ t, t ∈ before ∧ ThemeStorage.sameTheme theme t) →
         length after = length before)
    ∧ ((∀ t, t ∈ before → ¬ ThemeStorage.sameTheme theme t) →
         after = before ++ [theme])
    ∧ filter (λ t, ¬ ThemeStorage.sameTheme theme t) after
      = filter (λ t, ¬ ThemeStorage.sameTheme theme t) before
    ∧ ThemeStorage.saveTheme theme (ThemeStorage.saveTheme theme st)
      = ThemeStorage.saveTheme theme st
    ∧ (st = ThemeStorage.Malformed → after = [theme])
    ∧ (∀ a b, theme = ThemeStorage.Typed a →
              st = ThemeStorage.Written [ThemeStorage.Typed b] →
              Api.apiName b = Api.apiName a →
              after = [ThemeStorage.Typed a]).
Proof.
  intros theme st before after.
  split.
  { intros t. unfold ThemeStorage.sameTheme.
    destruct theme as [l|a], t as [m|b]; cbn; intuition congruence. }
  split_and!.
  - unfold after. rewrite saveTheme_themes. fold before.
    destruct (list_find _ before) as [[i t]|] eqn:Hfind.
    + pose proof Hfind as (Hi & _)%list_find_Some.
      apply list_elem_of_lookup. exists i. apply list_lookup_insert_eq.
      by apply lookup_lt_Some in Hi.
    + apply elem_of_app. right. by left.
  - intros (t & Ht & Hsame). unfold after. rewrite saveTheme_themes.
    fold before.
    destruct (list_find _ before) as [[i t']|] eqn:Hfind.
    + by rewrite length_insert.
    + exfalso. apply list_find_None in Hfind.
      rewrite Forall_forall in Hfind. by apply (Hfind t).
  - intros Hnone. unfold after. rewrite saveTheme_themes. fold before.
    destruct (list_find _ before) as [[i t]|] eqn:Hfind; [|done].
    exfalso. apply list_find_Some in Hfind as (Hi & Hsame & _).
    apply (Hnone t); [|done]. apply list_elem_of_lookup. eauto.
  - unfold after. rewrite saveTheme_themes. fold before.
    destruct (list_find _ before) as [[i t]|] eqn:Hfind.
    + pose proof Hfind as (Hi & Hsame & _)%list_find_Some.
      pose proof (lookup_lt_Some _ _ _ Hi) as Hlt.
      rewrite insert_take_drop by done.
      transitivity (filter (λ t, ¬ ThemeStorage.sameTheme theme t)
                      (take i before ++ t :: drop (S i) before));
        [|by rewrite take_drop_middle].
      rewrite !filter_app, !filter_cons.
      rewrite !decide_False; [done| |]; intros Hneg; by apply Hneg.
    + rewrite filter_app, filter_cons, decide_False, filter_nil, app_nil_r;
        [done|]. intros Hneg. by apply Hneg.
  - unfold ThemeStorage.saveTheme at 1. rewrite saveTheme_themes.
    fold before. unfold ThemeStorage.saveTheme. fold before.
    destruct (list_find _ before) as [[i t]|] eqn:Hfind.
    + rewrite (list_find_insert_same _ _ _ _ Hfind).
      by rewrite list_insert_insert_eq.
    + rewrite (list_find_snoc_same _ _ Hfind).
      by rewrite insert_app_r_alt, Nat.sub_diag.
  - intros ->. done.
  - intros a b -> -> Hname. unfold after, ThemeStorage.saveTheme. cbn.
    rewrite decide_True; [done|]. by split.
Qed.

(** ** The themes and games of the API *)

(** X19.  A local theme that goes to the API and comes back is the same
    theme.  Given an API theme that carries the name, language and
    description of the payload [localThemeToApi] built, [apiThemeToLocal]
    returns the local theme the payload came from, whatever the server put
    in the other fields; the difficulty sent is the argument, or [1] when
    it is left out, and the payload never sets [public]. *)
Theorem local_theme_survives_the_api :
  ∀ (l : Storage.LocalTheme) (d : option Z) (t : Api.ApiTheme),
    Api.apiName t = Api.payloadName (Api.localThemeToApi l d) →
    Api.payloadLanguage (Api.localThemeToApi l d) = Some (Api.language t) →
    Api.description t = Api.payloadDescription (Api.localThemeToApi l d) →
    Api.apiThemeToLocal t = l
    ∧ Api.localThemeToApi (Api.apiThemeToLocal t) d = Api.localThemeToApi l d
    ∧ Api.payloadDifficulty (Api.localThemeToApi l d) = Some (default 1 d)
    ∧ Api.payloadPublic (Api.localThemeToApi l d) = None.
Proof.
  intros [name lang teams words] d [id aname alang diff pub ver [dw dt]].
  cbn. intros -> [= ->] [= -> ->]. done.
Qed.

Lemma local_theme_survives_the_api_witness :
  Api.apiThemeToLocal
    {| Api.themeId := 7; Api.apiName := "animals"; Api.language := "en";
       Api.difficulty := 3; Api.public := true; Api.verified := false;
       Api.description :=
         {| Api.descWords := Storage.words Demo.animals;
            Api.descTeams := Storage.teams Demo.animals |} |}
  = Demo.animals.
Proof.
  refine (proj1 (local_theme_survives_the_api Demo.animals None _ _ _ _));
    reflexivity.
Defined.

Ltac distinct_keys :=
  repeat (apply NoDup_cons_2;
          [let H := fresh in
           intros H;
           repeat (apply elem_of_cons in H as [H|H]; [discriminate H|]);
           by apply elem_of_nil in H|]);
  apply NoDup_nil_2.

Ltac in_params :=
  cbn; rewrite ?elem_of_cons, ?elem_of_nil;
  split; intros;
  repeat match goal with
         | H : _ ∨ _ |- _ => destruct H
         | H : ∃ _, _ |- _ => destruct H
         | H : _ ∧ _ |- _ => destruct H
         | H : False |- _ => destruct H
         end;
  simplify_eq; eauto 12.


(** X21.  The query [getThemes] sends.  It starts with [page] and [size],
    [1] and [50] when left out, and names no parameter twice.
    [language] and [name] are sent exactly when they are given and not
    empty, [difficulty] exactly when it is a number other than [0]:
    difficulty [0] asks the same as no difficulty. *)
Theorem getThemes_sends_only_truthy_filters :
  ∀ (page size : option Z) (language : option string)
    (difficulty : option Z) (name : option string),
    let ps := Api.getThemesParams page size language difficulty name in
    take 2 ps = [("page"%string, pretty (default 1 page));
                 ("size"%string, pretty (default 50 size))]
    ∧ NoDup ps.*1
    ∧ (∀ v, ("language"%string, v) ∈ ps
            ↔ language = Some v ∧ v ≠ ""%string)
    ∧ (∀ v, ("difficulty"%string, v) ∈ ps
            ↔ ∃ n, difficulty = Some n ∧ n ≠ 0 ∧ v = pretty n)
    ∧ (∀ v, ("name"%string, v) ∈ ps ↔ name = Some v ∧ v ≠ ""%string)
    ∧ Api.getThemesParams page size language (Some 0) name
      = Api.getThemesParams page size language None name.
Proof.
  intros page size language difficulty name ps.
  split_and!.
  - reflexivity.
  - unfold ps, Api.getThemesParams, Api.truthyNum, Api.truthyStr, falsy_num,
      falsy_str.
    destruct difficulty as [n|]; [destruct (Z.eqb_spec n 0)|];
      destruct language as [l|], name as [m|];
      repeat case_decide; cbn; distinct_keys.
  - intros v. unfold ps, Api.getThemesParams, Api.truthyNum, Api.truthyStr,
      falsy_num, falsy_str.
    destruct difficulty as [n|]; [destruct (Z.eqb_spec n 0)|];
      destruct language as [l|], name as [m|];
      repeat case_decide; in_params.
  - intros v. unfold ps, Api.getThemesParams, Api.truthyNum, Api.truthyStr,
      falsy_num, falsy_str.
    destruct difficulty as [n|]; [destruct (Z.eqb_spec n 0)|];
      destruct language as [l|], name as [m|];
      repeat case_decide; in_params.
  - intros v. unfold ps, Api.getThemesParams, Api.truthyNum, Api.truthyStr,
      falsy_num, falsy_str.
    destruct difficulty as [n|]; [destruct (Z.eqb_spec n 0)|];
      destruct language as [l|], name as [m|];
      repeat case_decide; in_params.
  - reflexivity.
Qed.

(** ** The component without pause *)

Lemma basic_handleWordActions_run acts :
  ∀ (t : Z) (p : GamePlayBasic.Play),
    let i := currentWordIndex (GamePlayBasic.gameState p) in
    ""%string ∉ GamePlayBasic.roundWords p →
    GamePlayBasic.currentWord p
    = default ""%string (GamePlayBasic.roundWords p !! i) →
    GamePlayBasic.roundResultsRef p = GamePlayBasic.roundResults p →
    (i + length acts ≤ length (GamePlayBasic.roundWords p))%nat →
    (i < length (GamePlayBasic.roundWords p))%nat →
    let r := GamePlayBasic.handleWordActions acts t p in
    GamePlayBasic.roundResultsRef r.1
    = GamePlayBasic.roundResults p
      ++ zip_with Build_RoundResult (drop i (GamePlayBasic.roundWords p)) acts
    ∧ (r.2 = true
       ↔ (i + length acts)%nat = length (GamePlayBasic.roundWords p))
    ∧ Standing.same (GamePlayBasic.gameState p) (GamePlayBasic.gameState r.1).
Proof.
  induction acts as [|a acts IH]; intros t p i Hne Hcw Href Hlen Hlt.
  - cbn. rewrite zip_with_nil_r, app_nil_r. split_and!; [done| |done].
    split; [done|lia].
  - destruct (lookup_lt_is_Some_2 _ _ Hlt) as [w Hw]. fold i in Hw.
    rewrite Hw in Hcw. cbn in Hcw.
    assert (Hfalse : falsy_str (GamePlayBasic.currentWord p) = false).
    { unfold falsy_str. case_decide as Hempty; [|done].
      exfalso. apply Hne. rewrite <- Hempty, Hcw.
      apply list_elem_of_lookup. eauto. }
    rewrite (drop_S _ _ _ Hw).
    cbn [GamePlayBasic.handleWordActions length zip_with].
    unfold GamePlayBasic.handleWordAction. rewrite Hfalse. fold i.
    destruct (Nat.leb_spec (length (GamePlayBasic.roundWords p)) (i + 1))
      as [Hlast|Hmore].
    + cbn [length] in Hlen. assert (acts = []) as ->
        by (apply length_zero_iff_nil; lia).
      cbn. rewrite Hcw. split.
      { by rewrite zip_with_nil_r. }
      split.
      { split; [intros _; cbn in Hlen; fold i; lia|done]. }
      by repeat split.
    + set (p1 := {| GamePlayBasic.currentWord := _ |}).
      specialize (IH t p1). cbn in IH.
      destruct IH as (Hres & Hend & Hsame).
      * done.
      * by rewrite Nat.add_1_r.
      * done.
      * cbn [length] in Hlen. fold i. lia.
      * fold i. lia.
      * fold i in Hres, Hend. rewrite Nat.add_1_r in Hres, Hend.
        split_and!.
        -- rewrite Hres, Hcw, <- app_assoc. done.
        -- rewrite Hend. cbn [length]. lia.
        -- eapply same_trans; [|exact Hsame]. by repeat split.
Qed.

(** X22.  In the component without pause a round delivers one result per
    action.  From the state [startRound] leaves, for a theme without the
    empty word, any run of at most as many word actions as words were
    dealt is recorded in full: the results handed over when the deferred
    part of [endRound] runs pair the dealt words, in order, with the
    actions.  The run calls [endRound] exactly when it reaches the last
    dealt word, and it leaves the standing of the game as it was. *)
Theorem basic_round_delivers_every_action :
  ∀ (rnd : nat → nat) (now t : Z) (p0 p : GamePlayBasic.Play)
    (acts : list bool),
    GamePlayBasic.startRound rnd now p0 = GamePlayBasic.Started p →
    ""%string ∉ Types.words (theme (settings (GamePlayBasic.gameState p0))) →
    (length acts ≤ length (GamePlayBasic.roundWords p))%nat →
    let r := GamePlayBasic.handleWordActions acts t p in
    (GamePlayBasic.endRoundTimeout r.1).2
    = zip_with Build_RoundResult (GamePlayBasic.roundWords p) acts
    ∧ (r.2 = true ↔ length acts = length (GamePlayBasic.roundWords p))
    ∧ GamePlayBasic.roundWords p
      ≡ₚ getAvailableWords
           (theme (settings (GamePlayBasic.gameState p0)))
           (wordsUsed (GamePlayBasic.gameState p0))
    ∧ Standing.same (GamePlayBasic.gameState p0)
        (GamePlayBasic.gameState r.1).
Proof.
  intros rnd now t p0 p acts Hstart Hne Hlen r.
  unfold GamePlayBasic.startRound in Hstart.
  case_bool_decide as Hnone; [done|].
  injection Hstart as <-.
  set (avail := getAvailableWords _ _) in *.
  set (p := {| GamePlayBasic.currentWord := _ |}) in *.
  assert (Hperm : GamePlayBasic.roundWords p ≡ₚ avail)
    by apply shuffleArray_Permutation.
  assert (Hpos : (0 < length (GamePlayBasic.roundWords p))%nat).
  { rewrite Hperm. lia. }
  destruct (basic_handleWordActions_run acts t p) as (Hres & Hend & Hsame).
  - intros Hin. apply Hne. rewrite Hperm in Hin.
    by apply elem_of_getAvailableWords in Hin as [? _].
  - cbn. by rewrite head_lookup.
  - done.
  - cbn. done.
  - cbn. done.
  - fold r in Hres, Hend, Hsame. cbn in Hres, Hend. split_and!.
    + cbn. done.
    + done.
    + done.
    + eapply same_trans; [|exact Hsame]. by repeat split.
Qed.

Lemma basic_round_delivers_every_action_witness :
  ∃ p : GamePlayBasic.Play,
    (GamePlayBasic.endRoundTimeout
       (GamePlayBasic.handleWordActions [true; false] 5000 p).1).2
    = zip_with Build_RoundResult (GamePlayBasic.roundWords p) [true; false].
Proof.
  pose (p0 := {| GamePlayBasic.gameState := Sample.gameT1T2;
                 GamePlayBasic.currentWord := ""%string;
                 GamePlayBasic.roundWords := [];
                 GamePlayBasic.roundResults := [];
                 GamePlayBasic.currentTime := 0;
                 GamePlayBasic.roundResultsRef := [] |}).
  destruct (GamePlayBasic.startRound Sample.keepOrder 1000 p0)
    as [p|] eqn:Hstart; [|vm_compute in Hstart; discriminate Hstart].
  exists p.
  refine (proj1 (basic_round_delivers_every_action
                   Sample.keepOrder 1000 5000 p0 p [true; false]
                   Hstart _ _)).
  - vm_compute. intros Hin.
    repeat (apply elem_of_cons in Hin as [Hin|Hin]; [discriminate Hin|]).
    by apply elem_of_nil in Hin.
  - vm_compute in Hstart. injection Hstart as <-. vm_compute. lia.
Defined.
